(** * The remote request handler of the distributed runtime

    A shallow embedding of [lib/distributed_runtime/request_handler.cc]:
    the program cache ([RequestHandler::FunctionCache]), the registration
    path ([HandleRemoteRegister]) and the execution path
    ([HandleRemoteExecute]) with its completion continuation. *)

From Stdlib Require Import Strings.Byte Strings.String.
From stdpp Require Import gmap strings list fin_maps.

Open Scope string_scope.
Open Scope list_scope.
Open Scope nat_scope.

(** ** Data *)

(** [BEFBuffer] is a vector of bytes. *)
Abbreviation BEFBuffer := (list byte).

(** Heap addresses of reference-counted objects and of vector storage. *)
Abbreviation addr := positive.

(** A [Function] of a BEF file: its name and its signature.  The type
    names are what [TypeName::GetName] returns. *)
Record Function := mkFunction {
  fn_name : string;
  argument_types : list string;
  result_types : list string
}.

Definition num_arguments (fn : Function) : nat := length (argument_types fn).

(** [fn->num_arguments() > 0 &&
     fn->argument_types()[0].GetName() == "!dist.dist_context"]. *)
Definition takes_context (fn : Function) : bool :=
  bool_decide (0 < num_arguments fn) &&
  bool_decide (argument_types fn !! 0 = Some "!dist.dist_context").

(** Modelled from the spec: the class [BEFFile] is declared outside this
    translation unit.  The loader parses the bytes into an invocable
    program that references into them, so the bytes must outlive the
    program.  A [BEFFile] object on the heap is therefore its function
    table, the address of the storage it was opened over and its reference
    count ([ReferenceCounted]). *)
Record BEFFile := mkBEFFile {
  file_functions : list Function;
  file_data : addr;
  file_refs : nat
}.

(** [struct CachedBEF]: a reference to the [BEFFile] and the buffer, whose
    storage the entry owns. *)
Record CachedBEF := mkCachedBEF {
  bef_file : addr;
  bef_buffer : addr
}.

(** The cache [cached_bef_] together with the part of the heap it manages:
    the live [BEFFile] objects and the live buffer storage. *)
Record FunctionCache := mkFunctionCache {
  cached_bef_ : gmap string CachedBEF;
  bef_files : gmap addr BEFFile;
  bef_buffers : gmap addr BEFBuffer
}.

Definition empty_cache : FunctionCache := mkFunctionCache ∅ ∅ ∅.

(** Diagnostics written through [TFRT_LOG(ERROR)]. *)
Inductive Diagnostic :=
| FailedToOpenBEF (program_name : string)
| FailedToConvertMLIR (program_name : string)
| CantFindProgram (program_name : string)
| FailedToGetProgram (program_name : string)
| ResultSizeMismatch (nresults noutputs : nat)
| ArgumentSizeMismatch (nargs ninputs : nat)
| CantFindDevice (device_name : string)
| InvalidType (type_name : string).

(** Modelled from the spec: a device handle, as the device manager returns
    it for a device name. *)
Record Device := mkDevice {
  device_name : string;
  device_type : string
}.

Global Instance Device_eq_dec : EqDecision Device.
Proof. solve_decision. Defined.

Global Instance Device_countable : Countable Device.
Proof.
  apply (inj_countable' (λ d, (device_name d, device_type d))
                        (λ p, mkDevice p.1 p.2)).
  by intros [].
Defined.

(** An object id as it travels in a request: the device is a name. *)
Record WireObjectId := mkWireObjectId {
  prefix_id : N;
  local_id : N;
  device : string
}.

(** [RemoteObjectId(prefix_id, local_id, device)]: the device is resolved. *)
Record RemoteObjectId := mkRemoteObjectId {
  object_prefix_id : N;
  object_local_id : N;
  object_device : Device
}.

Global Instance RemoteObjectId_eq_dec : EqDecision RemoteObjectId.
Proof. solve_decision. Defined.

Global Instance RemoteObjectId_countable : Countable RemoteObjectId.
Proof.
  apply (inj_countable'
           (λ i, (object_prefix_id i, object_local_id i, object_device i))
           (λ p, mkRemoteObjectId p.1.1 p.1.2 p.2)).
  by intros [].
Defined.

(** [RemoteRegisterInvocation]. *)
Record RemoteRegisterInvocation := mkRemoteRegisterInvocation {
  register_program_name : string;
  program : string
}.

(** An entry of [request.outputs]. *)
Record Output := mkOutput {
  output_id : WireObjectId;
  need_metadata : bool
}.

(** Modelled from the spec: [RemoteExecuteInvocation] is declared in the
    handler's header.  The fields are those of the spec's execution
    request, [entry_function] included; the handler reads [program_name],
    [inputs] and [outputs]. *)
Record RemoteExecuteInvocation := mkRemoteExecuteInvocation {
  program_name : string;
  entry_function : string;
  inputs : list WireObjectId;
  outputs : list Output
}.

(** [RemoteExecuteInvocationResult]. *)
Record RemoteExecuteInvocationResult := mkResult {
  ok : bool;
  metadata : list string
}.

(** ** Reference counting *)

Module RC.

(** [RCReference::CopyRef]: one more holder. *)
Definition CopyRef (a : addr) (c : FunctionCache) : FunctionCache :=
  mkFunctionCache (cached_bef_ c)
    (alter (λ f, mkBEFFile (file_functions f) (file_data f) (S (file_refs f)))
           a (bef_files c))
    (bef_buffers c).

(** Destruction or reassignment of an [RCReference]: one holder fewer; the
    object is destroyed with its last holder. *)
Definition DropRef (a : addr) (c : FunctionCache) : FunctionCache :=
  match bef_files c !! a with
  | None => c
  | Some f =>
      match file_refs f with
      | S (S n) =>
          mkFunctionCache (cached_bef_ c)
            (<[a := mkBEFFile (file_functions f) (file_data f) (S n)]>
               (bef_files c))
            (bef_buffers c)
      | _ => mkFunctionCache (cached_bef_ c) (delete a (bef_files c))
                             (bef_buffers c)
      end
  end.

(** Reading a program through a reference.  The object must be live, and
    so must the bytes it references into; [None] is a dangling access. *)
Definition get (c : FunctionCache) (a : addr) : option (list Function) :=
  match bef_files c !! a with
  | None => None
  | Some f =>
      match bef_buffers c !! file_data f with
      | None => None
      | Some _ => Some (file_functions f)
      end
  end.

End RC.

(** ** The program cache *)

Section Cache.

(** [BEFFile::Open] with the host's kernel registry, diagnostic handler and
    allocator: the function table encoded in the bytes, or a null
    reference. *)
Variable BEFFile_Open : BEFBuffer → option (list Function).

(** [FunctionCache::Register].  The buffer is passed by value: its storage
    is the fresh address [ba].  On a parse failure the parameter is
    destroyed and the map is not touched.  Otherwise the entry's file
    reference is reassigned (releasing the one it held) and the entry's
    buffer is move-assigned (freeing the storage it held). *)
Definition Register (program_name : string) (bytes : BEFBuffer)
    (c : FunctionCache) : FunctionCache * list Diagnostic :=
  let ba := fresh (dom (bef_buffers c)) in
  let c1 := mkFunctionCache (cached_bef_ c) (bef_files c)
                            (<[ba := bytes]> (bef_buffers c)) in
  match BEFFile_Open bytes with
  | None =>
      (mkFunctionCache (cached_bef_ c1) (bef_files c1)
                       (delete ba (bef_buffers c1)),
       [FailedToOpenBEF program_name])
  | Some fns =>
      let fa := fresh (dom (bef_files c1)) in
      let c2 := mkFunctionCache (cached_bef_ c1)
                  (<[fa := mkBEFFile fns ba 1]> (bef_files c1))
                  (bef_buffers c1) in
      (* cached_bef_[program_name].bef_file = bef_file.CopyRef(); *)
      let c3 := RC.CopyRef fa c2 in
      let c4 := match cached_bef_ c3 !! program_name with
                | Some old => RC.DropRef (bef_file old) c3
                | None => c3
                end in
      (* cached_bef_[program_name].bef_buffer = std::move(bef_buffer); *)
      let c5 := match cached_bef_ c4 !! program_name with
                | Some old =>
                    mkFunctionCache (cached_bef_ c4) (bef_files c4)
                                    (delete (bef_buffer old) (bef_buffers c4))
                | None => c4
                end in
      let c6 := mkFunctionCache
                  (<[program_name := mkCachedBEF fa ba]> (cached_bef_ c5))
                  (bef_files c5) (bef_buffers c5) in
      (* the local reference bef_file goes out of scope *)
      (RC.DropRef fa c6, [])
  end.

(** [FunctionCache::Prepare]: a new reference to the cached file, or the
    null reference. *)
Definition Prepare (program_name : string) (c : FunctionCache)
    : option addr * FunctionCache :=
  match cached_bef_ c !! program_name with
  | Some e => (Some (bef_file e), RC.CopyRef (bef_file e) c)
  | None => (None, c)
  end.

End Cache.

(** The invariant of the cache: every entry holds a reference to a live
    file, opened over the entry's own live buffer, and no two entries share
    a file or a buffer. *)
Definition cache_wf (c : FunctionCache) : Prop :=
  (∀ name e, cached_bef_ c !! name = Some e →
     ∃ f, bef_files c !! bef_file e = Some f ∧ 0 < file_refs f ∧
          file_data f = bef_buffer e ∧
          is_Some (bef_buffers c !! bef_buffer e)) ∧
  (∀ n1 n2 e1 e2,
     cached_bef_ c !! n1 = Some e1 → cached_bef_ c !! n2 = Some e2 →
     bef_file e1 = bef_file e2 ∨ bef_buffer e1 = bef_buffer e2 → n1 = n2).

(** The operations on the cache, and the cache after a history of them
    that starts from the empty cache. *)
Inductive CacheOp :=
| OpRegister (name : string) (bytes : BEFBuffer)
| OpPrepare (name : string).

Definition apply_op (open : BEFBuffer → option (list Function))
    (c : FunctionCache) (op : CacheOp) : FunctionCache :=
  match op with
  | OpRegister name bytes => (Register open name bytes c).1
  | OpPrepare name => (Prepare name c).2
  end.

Definition run_ops (open : BEFBuffer → option (list Function))
    (ops : list CacheOp) : FunctionCache :=
  foldl (apply_op open) empty_cache ops.

Definition registers (name : string) (op : CacheOp) : Prop :=
  match op with
  | OpRegister name' _ => name' = name
  | OpPrepare _ => False
  end.

(** ** Runs and events *)

(** The result of running a piece of the handler: it finishes, or it
    performs an access C++ leaves undefined (an index out of range, a
    dangling reference). *)
Inductive Run (A : Type) :=
| Finished (a : A)
| Undefined.
Arguments Finished {A} a.
Arguments Undefined {A}.

(** What the handler does to the outside, in the order it does it.  [V] is
    the type of the host's value cells ([AsyncValue]). *)
Inductive Event (V : Type) :=
| Log (d : Diagnostic)
| Done (response : RemoteExecuteInvocationResult)
| Executed (fn : Function) (arguments : list (option V))
| Published (id : RemoteObjectId) (value : V).
Arguments Log {V} d.
Arguments Done {V} response.
Arguments Executed {V} fn arguments.
Arguments Published {V} id value.

(** The handler's state: its cache, the remote object manager of its
    distributed context, and the events so far. *)
Record World (V : Type) := mkWorld {
  function_cache_ : FunctionCache;
  remote_objects : gmap RemoteObjectId V;
  trace : list (Event V)
}.
Arguments mkWorld {V} _ _ _.
Arguments function_cache_ {V} _.
Arguments remote_objects {V} _.
Arguments trace {V} _.

Definition emit {V} (es : list (Event V)) (w : World V) : World V :=
  mkWorld (function_cache_ w) (remote_objects w) (trace w ++ es).

(** How often the completion callback [done] was invoked. *)
Fixpoint count_done {V} (es : list (Event V)) : nat :=
  match es with
  | [] => 0
  | Done _ :: es => S (count_done es)
  | _ :: es => count_done es
  end.

(** The captures of the lambda handed to [RunWhenReady]. *)
Record Continuation (V : Type) := mkContinuation {
  k_fn : Function;
  k_request : RemoteExecuteInvocation;
  k_results : list V;
  k_response : RemoteExecuteInvocationResult
}.
Arguments mkContinuation {V} _ _ _ _.
Arguments k_fn {V} _.
Arguments k_request {V} _.
Arguments k_results {V} _.
Arguments k_response {V} _.

(** The collaborators of the handler, all declared outside this file. *)
Record Env := mkEnv {
  (** [AsyncValue]: a value cell of the host. *)
  AsyncValue : Type;
  (** [BEFFile::Open] with the host's registry, handler and allocator. *)
  BEFFile_Open : BEFBuffer → option (list Function);
  (** [ConvertMLIRSrcToBEF(program, true)]: empty on failure. *)
  ConvertMLIRSrcToBEF : string → BEFBuffer;
  (** [host_ctx()->GetDeviceManager()]. *)
  devices : gmap string Device;
  (** The member [dist_ctx_]. *)
  dist_ctx_ : AsyncValue;
  (** [fn->Execute(exec_ctx, arguments, results)]: the value the call
      stores in slot [i] of [results].  A null argument is [None]. *)
  Execute : Function → list (option AsyncValue) → nat → AsyncValue;
  (** [SerializeTensorMetadata(v->get<Tensor>().metadata())]. *)
  SerializeTensorMetadata : AsyncValue → string
}.

Section RequestHandler.

Variable env : Env.

Abbreviation Value := (AsyncValue env).

(** ** Registration *)

(** [RequestHandler::HandleRemoteRegister]. *)
Definition HandleRemoteRegister (request : RemoteRegisterInvocation)
    (w : World Value) : World Value :=
  let bef_buffer := ConvertMLIRSrcToBEF env (program request) in
  match bef_buffer with
  | [] => emit [Log (FailedToConvertMLIR (register_program_name request))] w
  | _ :: _ =>
      let '(c, diags) := Register (BEFFile_Open env) (register_program_name request)
                                  bef_buffer (function_cache_ w) in
      mkWorld c (remote_objects w) (trace w ++ map Log diags)
  end.

(** ** Execution *)

(** Modelled from the spec: [BEFFile::GetFunction] resolves a named entry
    function of the program; the first function of that name, or null. *)
Definition GetFunction (functions : list Function) (name : string)
    : option Function :=
  snd <$> list_find (λ fn, fn_name fn = name) functions.

(** [GetDeviceRef<Device>(name)]. *)
Definition GetDeviceRef (name : string) : option Device := devices env !! name.

(** Modelled from the spec: the object store's [get] returns the value
    published under the id, or an absent reference. *)
Definition GetRemoteObject (manager : gmap RemoteObjectId Value)
    (id : RemoteObjectId) : option Value := manager !! id.

(** [RemoteObjectManager::SetRemoteObject]. *)
Definition SetRemoteObject (id : RemoteObjectId) (value : Value)
    (manager : gmap RemoteObjectId Value)
    : gmap RemoteObjectId Value := <[id := value]> manager.

(** The loop over [request.inputs]: the name of the first device that does
    not resolve, or the arguments with one entry pushed per input. *)
Fixpoint resolve_inputs (ids : list WireObjectId)
    (manager : gmap RemoteObjectId Value)
    (arguments : list (option Value))
    : string + list (option Value) :=
  match ids with
  | [] => inr arguments
  | id :: rest =>
      match GetDeviceRef (device id) with
      | None => inl (device id)
      | Some dev =>
          let input_id := mkRemoteObjectId (prefix_id id) (local_id id) dev in
          let val := GetRemoteObject manager input_id in
          resolve_inputs rest manager (arguments ++ [val])
      end
  end.

(** The loop over [request.outputs] after the call: [outs] are the outputs
    from index [i] on.  Each result is set in the store as soon as its
    device resolves; the loop stops at the first device that does not. *)
Fixpoint publish_outputs (outs : list Output) (i : nat)
    (results : list Value)
    (manager : gmap RemoteObjectId Value)
    : Run (gmap RemoteObjectId Value * list (Event Value) * option string) :=
  match outs with
  | [] => Finished (manager, [], None)
  | o :: rest =>
      let id := output_id o in
      match GetDeviceRef (device id) with
      | None => Finished (manager, [], Some (device id))
      | Some dev =>
          let output_id := mkRemoteObjectId (prefix_id id) (local_id id) dev in
          match results !! i with
          | None => Undefined
          | Some v =>
              match publish_outputs rest (S i) results
                                    (SetRemoteObject output_id v manager) with
              | Finished (m, es, failed) =>
                  Finished (m, Published output_id v :: es, failed)
              | Undefined => Undefined
              end
          end
      end
  end.

(** The body of the continuation: the loop over [request.outputs] from
    index [i] on, with the response as built so far. *)
Fixpoint serialize_outputs (fn : Function) (results : list Value)
    (outs : list Output) (i : nat)
    (response : RemoteExecuteInvocationResult) : Run (list (Event Value)) :=
  match outs with
  | [] => Finished [Done (mkResult true (metadata response))]
  | o :: rest =>
      if need_metadata o then
        match result_types fn !! i with
        | None => Undefined
        | Some t =>
            if bool_decide (t = "!t.tensor") then
              match results !! i with
              | None => Undefined
              | Some v =>
                  let serialized := SerializeTensorMetadata env v in
                  serialize_outputs fn results rest (S i)
                    (mkResult (ok response)
                              (metadata response ++ [serialized]))
              end
            else Finished [Log (InvalidType t); Done response]
        end
      else serialize_outputs fn results rest (S i) response
  end.

Definition run_continuation (k : Continuation Value) : Run (list (Event Value)) :=
  serialize_outputs (k_fn k) (k_results k) (outputs (k_request k)) 0
                    (k_response k).

(** The part of [HandleRemoteExecute] that runs while the reference
    [bef_file] is held, on the functions of the prepared file: the new
    store, the events, and the continuation handed to [RunWhenReady], if
    the handler gets that far. *)
Definition execute_prepared (request : RemoteExecuteInvocation)
    (functions : list Function)
    (manager : gmap RemoteObjectId Value)
    : Run (gmap RemoteObjectId Value * list (Event Value) * option (Continuation Value)) :=
  let response := mkResult false [] in
  match GetFunction functions (program_name request) with
  | None =>
      Finished (manager,
                [Log (FailedToGetProgram (program_name request));
                 Done response], None)
  | Some fn =>
      if bool_decide (length (result_types fn) ≠ length (outputs request))
      then
        Finished (manager,
                  [Log (ResultSizeMismatch (length (result_types fn))
                                           (length (outputs request)));
                   Done response], None)
      else
        (* Allow the first argument to be `DistributedContext`. *)
        let arguments :=
          if takes_context fn then [Some (dist_ctx_ env)] else [] in
        let num_dist_context_args := if takes_context fn then 1 else 0 in
        if bool_decide (length (argument_types fn) ≠
                        num_dist_context_args + length (inputs request))
        then
          Finished (manager,
                    [Log (ArgumentSizeMismatch (length (argument_types fn))
                                               (length (inputs request)))],
                    None)
        else
          match resolve_inputs (inputs request) manager arguments with
          | inl dev =>
              Finished (manager, [Log (CantFindDevice dev); Done response],
                        None)
          | inr arguments =>
              let results := map (Execute env fn arguments)
                                 (seq 0 (length (result_types fn))) in
              match publish_outputs (outputs request) 0 results manager with
              | Undefined => Undefined
              | Finished (m, es, Some dev) =>
                  Finished (m,
                            Executed fn arguments :: es ++
                            [Log (CantFindDevice dev); Done response],
                            None)
              | Finished (m, es, None) =>
                  Finished (m, Executed fn arguments :: es,
                            Some (mkContinuation fn request results response))
              end
          end
  end.

(** [RequestHandler::HandleRemoteExecute], up to its return: the world it
    leaves and the continuation it registered. *)
Definition HandleRemoteExecute (request : RemoteExecuteInvocation)
    (w : World Value) : Run (World Value * option (Continuation Value)) :=
  let response := mkResult false [] in
  match Prepare (program_name request) (function_cache_ w) with
  | (None, c) =>
      Finished (mkWorld c (remote_objects w)
                  (trace w ++ [Log (CantFindProgram (program_name request));
                               Done response]),
                None)
  | (Some bef_file, c) =>
      match RC.get c bef_file with
      | None => Undefined
      | Some functions =>
          match execute_prepared request functions (remote_objects w) with
          | Undefined => Undefined
          | Finished (m, es, k) =>
              (* bef_file goes out of scope on every return *)
              Finished (mkWorld (RC.DropRef bef_file c) m (trace w ++ es), k)
          end
      end
  end.

(** Modelled from the spec: [RunWhenReady] belongs to the host.  It runs
    the continuation once, when the last of the results is ready. *)
Definition RunWhenReady (k : Continuation Value) (w : World Value) : Run (World Value) :=
  match run_continuation k with
  | Undefined => Undefined
  | Finished es => Finished (emit es w)
  end.

(** A request from its arrival to the end of its continuation. *)
Definition serve (request : RemoteExecuteInvocation) (w : World Value)
    : Run (World Value) :=
  match HandleRemoteExecute request w with
  | Undefined => Undefined
  | Finished (w', None) => Finished w'
  | Finished (w', Some k) => RunWhenReady k w'
  end.

End RequestHandler.

(** ** Notions used to state the properties *)

Section Notions.

Variable env : Env.

(** The functions of the program cached under a name. *)
Definition cached_program (c : FunctionCache) (name : string)
    : option (list Function) :=
  match cached_bef_ c !! name with
  | None => None
  | Some e => file_functions <$> bef_files c !! bef_file e
  end.

(** A wire id with its device resolved, as both loops of the handler
    build it. *)
Definition resolve (id : WireObjectId) : option RemoteObjectId :=
  match GetDeviceRef env (device id) with
  | None => None
  | Some dev => Some (mkRemoteObjectId (prefix_id id) (local_id id) dev)
  end.

(** The ids of the outputs in front of the first one whose device does
    not resolve. *)
Fixpoint resolved_prefix (outs : list Output) : list RemoteObjectId :=
  match outs with
  | [] => []
  | o :: rest =>
      match resolve (output_id o) with
      | None => []
      | Some id => id :: resolved_prefix rest
      end
  end.

(** The serialized metadata of the values whose output asks for it, in
    the order of the outputs. *)
Definition requested_metadata (outs : list Output)
    (values : list (AsyncValue env)) : list string :=
  omap (λ p : Output * AsyncValue env,
          if need_metadata p.1 then Some (SerializeTensorMetadata env p.2)
          else None)
       (zip outs values).

(** The arguments the handler starts from, and their number. *)
Definition context_arguments (fn : Function)
    : list (option (AsyncValue env)) :=
  if takes_context fn then [Some (dist_ctx_ env)] else [].

(** The results of a call, one per declared result. *)
Definition results_of (fn : Function)
    (arguments : list (option (AsyncValue env))) : list (AsyncValue env) :=
  map (Execute env fn arguments) (seq 0 (length (result_types fn))).

(** The store after a list of publications. *)
Definition publish_all (pubs : list (RemoteObjectId * AsyncValue env))
    (manager : gmap RemoteObjectId (AsyncValue env))
    : gmap RemoteObjectId (AsyncValue env) :=
  foldl (λ m p, SetRemoteObject env p.1 p.2 m) manager pubs.

Definition published_events (pubs : list (RemoteObjectId * AsyncValue env))
    : list (Event (AsyncValue env)) :=
  map (λ p, Published p.1 p.2) pubs.

(** The paths of a request through the handler and its continuation, in
    the order of the source: the store each one leaves and the events it
    adds, for a request arriving with the cache [c] and the store [m0]. *)
Inductive outcome (request : RemoteExecuteInvocation) (c : FunctionCache)
    (m0 : gmap RemoteObjectId (AsyncValue env))
    : gmap RemoteObjectId (AsyncValue env) →
      list (Event (AsyncValue env)) → Prop :=
| out_no_program :
    cached_program c (program_name request) = None →
    outcome request c m0 m0
      [Log (CantFindProgram (program_name request)); Done (mkResult false [])]
| out_no_function fns :
    cached_program c (program_name request) = Some fns →
    GetFunction fns (program_name request) = None →
    outcome request c m0 m0
      [Log (FailedToGetProgram (program_name request));
       Done (mkResult false [])]
| out_result_mismatch fns fn :
    cached_program c (program_name request) = Some fns →
    GetFunction fns (program_name request) = Some fn →
    length (result_types fn) ≠ length (outputs request) →
    outcome request c m0 m0
      [Log (ResultSizeMismatch (length (result_types fn))
                               (length (outputs request)));
       Done (mkResult false [])]
| out_argument_mismatch fns fn :
    cached_program c (program_name request) = Some fns →
    GetFunction fns (program_name request) = Some fn →
    length (result_types fn) = length (outputs request) →
    length (argument_types fn) ≠
      (if takes_context fn then 1 else 0) + length (inputs request) →
    outcome request c m0 m0
      [Log (ArgumentSizeMismatch (length (argument_types fn))
                                 (length (inputs request)))]
| out_input_device fns fn dev :
    cached_program c (program_name request) = Some fns →
    GetFunction fns (program_name request) = Some fn →
    length (result_types fn) = length (outputs request) →
    length (argument_types fn) =
      (if takes_context fn then 1 else 0) + length (inputs request) →
    resolve_inputs env (inputs request) m0 (context_arguments fn) = inl dev →
    outcome request c m0 m0
      [Log (CantFindDevice dev); Done (mkResult false [])]
| out_output_device fns fn args o pubs :
    cached_program c (program_name request) = Some fns →
    GetFunction fns (program_name request) = Some fn →
    length (result_types fn) = length (outputs request) →
    length (argument_types fn) =
      (if takes_context fn then 1 else 0) + length (inputs request) →
    resolve_inputs env (inputs request) m0 (context_arguments fn) = inr args →
    outputs request !! length (resolved_prefix (outputs request)) = Some o →
    pubs = zip (resolved_prefix (outputs request)) (results_of fn args) →
    outcome request c m0 (publish_all pubs m0)
      (Executed fn args :: published_events pubs ++
       [Log (CantFindDevice (device (output_id o)));
        Done (mkResult false [])])
| out_invalid_type fns fn args n o t pubs :
    cached_program c (program_name request) = Some fns →
    GetFunction fns (program_name request) = Some fn →
    length (result_types fn) = length (outputs request) →
    length (argument_types fn) =
      (if takes_context fn then 1 else 0) + length (inputs request) →
    resolve_inputs env (inputs request) m0 (context_arguments fn) = inr args →
    length (resolved_prefix (outputs request)) = length (outputs request) →
    pubs = zip (resolved_prefix (outputs request)) (results_of fn args) →
    outputs request !! n = Some o → need_metadata o = true →
    result_types fn !! n = Some t → t ≠ "!t.tensor" →
    (∀ j o' t', j < n → outputs request !! j = Some o' →
                need_metadata o' = true → result_types fn !! j = Some t' →
                t' = "!t.tensor") →
    outcome request c m0 (publish_all pubs m0)
      (Executed fn args :: published_events pubs ++
       [Log (InvalidType t);
        Done (mkResult false
                (requested_metadata (take n (outputs request))
                                    (results_of fn args)))])
| out_success fns fn args pubs :
    cached_program c (program_name request) = Some fns →
    GetFunction fns (program_name request) = Some fn →
    length (result_types fn) = length (outputs request) →
    length (argument_types fn) =
      (if takes_context fn then 1 else 0) + length (inputs request) →
    resolve_inputs env (inputs request) m0 (context_arguments fn) = inr args →
    length (resolved_prefix (outputs request)) = length (outputs request) →
    pubs = zip (resolved_prefix (outputs request)) (results_of fn args) →
    (∀ j o' t', outputs request !! j = Some o' →
                need_metadata o' = true → result_types fn !! j = Some t' →
                t' = "!t.tensor") →
    outcome request c m0 (publish_all pubs m0)
      (Executed fn args :: published_events pubs ++
       [Done (mkResult true
                (requested_metadata (outputs request) (results_of fn args)))]).

End Notions.

(** ** The handler over a history of requests *)

(** [RequestHandler::RequestHandler]: the handler starts with an empty
    cache; the object store is the one of its distributed context. *)
Definition RequestHandler_new {V} (manager : gmap RemoteObjectId V)
    : World V :=
  mkWorld empty_cache manager [].

(** The two kinds of request the handler serves. *)
Inductive Invocation :=
| RegisterInvocation (request : RemoteRegisterInvocation)
| ExecuteInvocation (request : RemoteExecuteInvocation).

(** One request, and a list of them one after the other, each run to the
    end of its continuation before the next. *)
Definition handle (env : Env) (w : World (AsyncValue env))
    (inv : Invocation) : Run (World (AsyncValue env)) :=
  match inv with
  | RegisterInvocation request => Finished (HandleRemoteRegister env request w)
  | ExecuteInvocation request => serve env request w
  end.

Fixpoint handle_all (env : Env) (invs : list Invocation)
    (w : World (AsyncValue env)) : Run (World (AsyncValue env)) :=
  match invs with
  | [] => Finished w
  | inv :: rest =>
      match handle env w inv with
      | Undefined => Undefined
      | Finished w' => handle_all env rest w'
      end
  end.

(** A registration that installs a program: the compiler yields bytes and
    the bytes parse. *)
Definition installs (env : Env) (name : string) (inv : Invocation) : Prop :=
  match inv with
  | RegisterInvocation request =>
      register_program_name request = name ∧
      ConvertMLIRSrcToBEF env (program request) ≠ [] ∧
      is_Some (BEFFile_Open env (ConvertMLIRSrcToBEF env (program request)))
  | ExecuteInvocation _ => False
  end.

(** The calls of [SetRemoteObject] among the events, in order. *)
Fixpoint publications {V} (es : list (Event V)) : list (RemoteObjectId * V) :=
  match es with
  | [] => []
  | Published id v :: es => (id, v) :: publications es
  | _ :: es => publications es
  end.

(** How often the function was called. *)
Fixpoint count_executed {V} (es : list (Event V)) : nat :=
  match es with
  | [] => 0
  | Executed _ _ :: es => S (count_executed es)
  | _ :: es => count_executed es
  end.

(** Nothing on the heap but what the entries hold: every live file has one
    holder and is the file of an entry, every live buffer is the buffer of
    an entry. *)
Definition cache_tight (c : FunctionCache) : Prop :=
  (∀ a f, bef_files c !! a = Some f →
     file_refs f = 1 ∧
     ∃ name e, cached_bef_ c !! name = Some e ∧ bef_file e = a) ∧
  (∀ a b, bef_buffers c !! a = Some b →
     ∃ name e, cached_bef_ c !! name = Some e ∧ bef_buffer e = a).

(** What a request must satisfy for the function [fn] to be called and the
    response to report success: the checks of [HandleRemoteExecute] and of
    its continuation, in the order of the source. *)
Definition accepts (env : Env) (fn : Function)
    (request : RemoteExecuteInvocation) : Prop :=
  length (result_types fn) = length (outputs request) ∧
  length (argument_types fn) =
    (if takes_context fn then 1 else 0) + length (inputs request) ∧
  Forall (λ id, is_Some (GetDeviceRef env (device id))) (inputs request) ∧
  Forall (λ o, is_Some (GetDeviceRef env (device (output_id o))))
         (outputs request) ∧
  (∀ j o t, outputs request !! j = Some o → need_metadata o = true →
            result_types fn !! j = Some t → t = "!t.tensor").

(** The arguments of the call: the context, when the function takes it,
    then the stored value of each input. *)
Definition call_arguments (env : Env) (fn : Function)
    (request : RemoteExecuteInvocation)
    (manager : gmap RemoteObjectId (AsyncValue env))
    : list (option (AsyncValue env)) :=
  context_arguments env fn ++
  map (λ id, resolve env id ≫= GetRemoteObject env manager) (inputs request).

(** The continuation's loop stops at the output of position [n]: it asks
    for metadata, its declared type [t] is not the tensor type, and every
    output in front of it that asks for metadata is declared a tensor. *)
Definition stops_at (fn : Function) (request : RemoteExecuteInvocation)
    (n : nat) (o : Output) (t : string) : Prop :=
  outputs request !! n = Some o ∧ need_metadata o = true ∧
  result_types fn !! n = Some t ∧ t ≠ "!t.tensor" ∧
  ∀ j o' t', j < n → outputs request !! j = Some o' →
             need_metadata o' = true → result_types fn !! j = Some t' →
             t' = "!t.tensor".

(** ** A small host

    A concrete set of collaborators, on which the handler is run: values
    are strings, the loader knows two programs, and one device exists. *)
Module Sample.

Definition tensor_t : string := "!t.tensor".
Definition context_t : string := "!dist.dist_context".

(** Program [A]: one function [p] without arguments or results. *)
Definition program_A : list Function := [mkFunction "p" [] []].

(** Program [B]: [p] takes the context and a tensor and returns a tensor
    and an integer; [f] returns a tensor. *)
Definition program_B : list Function :=
  [mkFunction "p" [context_t; tensor_t] [tensor_t; "i32"];
   mkFunction "f" [] [tensor_t]].

(** Program [C]: [p] takes one tensor and returns nothing. *)
Definition program_C : list Function := [mkFunction "p" [tensor_t] []].

Definition open (bytes : BEFBuffer) : option (list Function) :=
  match bytes with
  | "A"%byte :: _ => Some program_A
  | "B"%byte :: _ => Some program_B
  | "C"%byte :: _ => Some program_C
  | _ => None
  end.

Definition cpu : Device := mkDevice "cpu:0" "cpu".

Definition slot_name (i : nat) : string :=
  match i with 0 => "#0" | 1 => "#1" | _ => "#n" end.

Definition env : Env :=
  mkEnv string open String.list_byte_of_string {["cpu:0" := cpu]} "dist_ctx"
        (λ fn _ i, fn_name fn +:+ slot_name i)
        (λ v, "meta:" +:+ v).

Definition world0 : World string := mkWorld empty_cache ∅ [].

(** The world after the registration of [program] under the name [p]. *)
Definition registered (program : string) : World string :=
  HandleRemoteRegister env (mkRemoteRegisterInvocation "p" program) world0.

Definition on_cpu (n : N) : WireObjectId := mkWireObjectId 0 n "cpu:0".
Definition on_gpu (n : N) : WireObjectId := mkWireObjectId 0 n "gpu:9".

End Sample.

(** A second host, which knows one more program. *)
Module Sample2.

(** Program [D]: [p] takes two tensors and returns nothing. *)
Definition program_D : list Function :=
  [mkFunction "p" [Sample.tensor_t; Sample.tensor_t] []].

Definition open (bytes : BEFBuffer) : option (list Function) :=
  match bytes with
  | "D"%byte :: _ => Some program_D
  | _ => Sample.open bytes
  end.

Definition env : Env :=
  mkEnv string open String.list_byte_of_string {["cpu:0" := Sample.cpu]}
        "dist_ctx"
        (λ fn _ i, fn_name fn +:+ Sample.slot_name i)
        (λ v, "meta:" +:+ v).

End Sample2.

(** * Properties *)

(** ** The program cache *)

Section CacheProperties.

Variable open : BEFBuffer → option (list Function).

Lemma cache_wf_empty : cache_wf empty_cache.
Proof.
  split; simpl.
  - intros name e H. by rewrite lookup_empty in H.
  - intros n1 n2 e1 e2 H. by rewrite lookup_empty in H.
Qed.

Lemma fresh_buffer_free (c : FunctionCache) :
  bef_buffers c !! fresh (dom (bef_buffers c)) = None.
Proof. apply not_elem_of_dom, is_fresh. Qed.

Lemma fresh_file_free (c : FunctionCache) :
  bef_files c !! fresh (dom (bef_files c)) = None.
Proof. apply not_elem_of_dom, is_fresh. Qed.

(** A failed parse leaves the cache and the heap as they were. *)
Lemma Register_parse_failure name bytes c :
  open bytes = None →
  Register open name bytes c = (c, [FailedToOpenBEF name]).
Proof.
  intros Hopen. unfold Register. rewrite Hopen. simpl.
  rewrite delete_insert_eq.
  rewrite delete_id by apply fresh_buffer_free.
  by destruct c.
Qed.

(** Reference counting touches neither the map nor the buffers. *)
Lemma cached_DropRef a c : cached_bef_ (RC.DropRef a c) = cached_bef_ c.
Proof.
  unfold RC.DropRef. destruct (bef_files c !! a) as [f|]; [|done].
  by destruct (file_refs f) as [|[|n]].
Qed.

Lemma buffers_DropRef a c : bef_buffers (RC.DropRef a c) = bef_buffers c.
Proof.
  unfold RC.DropRef. destruct (bef_files c !! a) as [f|]; [|done].
  by destruct (file_refs f) as [|[|n]].
Qed.

Lemma files_DropRef_ne a a' c :
  a ≠ a' → bef_files (RC.DropRef a c) !! a' = bef_files c !! a'.
Proof.
  intros Hne. unfold RC.DropRef. destruct (bef_files c !! a) as [f|]; [|done].
  destruct (file_refs f) as [|[|n]]; cbn.
  - by rewrite lookup_delete_ne.
  - by rewrite lookup_delete_ne.
  - by rewrite lookup_insert_ne.
Qed.

Lemma files_DropRef_eq a c f :
  bef_files c !! a = Some f →
  bef_files (RC.DropRef a c) !! a =
    match file_refs f with
    | S (S n) => Some (mkBEFFile (file_functions f) (file_data f) (S n))
    | _ => None
    end.
Proof.
  intros Hf. unfold RC.DropRef. rewrite Hf.
  destruct (file_refs f) as [|[|n]]; cbn.
  - by rewrite lookup_delete_eq.
  - by rewrite lookup_delete_eq.
  - by rewrite lookup_insert_eq.
Qed.

(** Releasing a reference just taken restores the heap, provided another
    holder exists. *)
Lemma DropRef_CopyRef a c f :
  bef_files c !! a = Some f → 0 < file_refs f →
  RC.DropRef a (RC.CopyRef a c) = c.
Proof.
  intros Hf Hrefs. unfold RC.DropRef, RC.CopyRef. cbn.
  rewrite lookup_alter_eq, Hf. cbn.
  destruct (file_refs f) as [|n] eqn:Hn; [lia|].
  destruct c as [C F B]. cbn in *. f_equal.
  apply map_eq. intros a'. destruct (decide (a = a')) as [<-|Hne].
  - rewrite lookup_insert_eq, Hf. destruct f; cbn in *. by subst.
  - by rewrite lookup_insert_ne, lookup_alter_ne.
Qed.

(** A successful registration, field by field. *)
Lemma Register_success name bytes fns c :
  cache_wf c → open bytes = Some fns →
  let ba := fresh (dom (bef_buffers c)) in
  let fa := fresh (dom (bef_files c)) in
  let c' := (Register open name bytes c).1 in
  (Register open name bytes c).2 = [] ∧
  cached_bef_ c' = <[name := mkCachedBEF fa ba]> (cached_bef_ c) ∧
  bef_files c' !! fa = Some (mkBEFFile fns ba 1) ∧
  bef_buffers c' !! ba = Some bytes ∧
  (∀ a, a ≠ fa →
        (∀ old, cached_bef_ c !! name = Some old → a ≠ bef_file old) →
        bef_files c' !! a = bef_files c !! a) ∧
  (∀ a, a ≠ ba →
        (∀ old, cached_bef_ c !! name = Some old → a ≠ bef_buffer old) →
        bef_buffers c' !! a = bef_buffers c !! a).
Proof.
  intros [Hlive _] Hopen ba fa c'.
  pose proof (fresh_buffer_free c) as Hba. fold ba in Hba.
  pose proof (fresh_file_free c) as Hfa. fold fa in Hfa.
  subst c'. unfold Register. rewrite Hopen. cbv zeta. unfold RC.CopyRef.
  cbn [cached_bef_ bef_files bef_buffers fst snd].
  fold ba fa.
  destruct (cached_bef_ c !! name) as [old|] eqn:Hold.
  - destruct (Hlive _ _ Hold) as (f & Hf & Hrefs & Hdata & [b Hb]).
    assert (bef_file old ≠ fa) as Hne by congruence.
    assert (bef_buffer old ≠ ba) as Hneb by congruence.
    rewrite !cached_DropRef. cbn [cached_bef_ bef_files bef_buffers].
    rewrite Hold. cbn [cached_bef_ bef_files bef_buffers].
    rewrite !buffers_DropRef. cbn [cached_bef_ bef_files bef_buffers].
    split; [done|]. split; [done|]. split; [|split; [|split]].
    + erewrite files_DropRef_eq; cbn [bef_files].
      2:{ rewrite files_DropRef_ne by done. cbn [bef_files].
          by rewrite lookup_alter_eq, lookup_insert_eq. }
      done.
    + by rewrite lookup_delete_ne, lookup_insert_eq.
    + intros a Ha Hold'. specialize (Hold' _ eq_refl).
      rewrite files_DropRef_ne by done. cbn [bef_files].
      rewrite files_DropRef_ne by done. cbn [bef_files].
      by rewrite lookup_alter_ne, lookup_insert_ne.
    + intros a Ha Hold'. specialize (Hold' _ eq_refl).
      by rewrite lookup_delete_ne, lookup_insert_ne.
  - rewrite !cached_DropRef. cbn [cached_bef_ bef_files bef_buffers].
    rewrite Hold. cbn [cached_bef_ bef_files bef_buffers].
    rewrite !buffers_DropRef. cbn [cached_bef_ bef_files bef_buffers].
    split; [done|]. split; [done|]. split; [|split; [|split]].
    + erewrite files_DropRef_eq; cbn [bef_files].
      2:{ by rewrite lookup_alter_eq, lookup_insert_eq. }
      done.
    + by rewrite lookup_insert_eq.
    + intros a Ha _. rewrite files_DropRef_ne by done. cbn [bef_files].
      by rewrite lookup_alter_ne, lookup_insert_ne.
    + intros a Ha _. by rewrite lookup_insert_ne.
Qed.

(** The invariant holds in every cache the operations can reach. *)
Lemma Register_wf name bytes c :
  cache_wf c → cache_wf (Register open name bytes c).1.
Proof.
  intros Hwf. destruct (open bytes) as [fns|] eqn:Hopen.
  2:{ by rewrite Register_parse_failure. }
  destruct (Register_success name bytes fns c Hwf Hopen)
    as (_ & Hc & Hf & Hb & Hfiles & Hbufs).
  pose proof (fresh_buffer_free c) as Hba.
  pose proof (fresh_file_free c) as Hfa.
  destruct Hwf as [Hlive Hinj]. split.
  - intros name' e'. rewrite Hc. intros He'.
    destruct (decide (name = name')) as [<-|Hne].
    + rewrite lookup_insert_eq in He'. injection He' as <-.
      eexists. split; [exact Hf|]. cbn. rewrite Hb.
      split; [lia|]. split; [done|]. by eexists.
    + rewrite lookup_insert_ne in He' by done.
      destruct (Hlive _ _ He') as (f & Hf' & Hrefs & Hdata & [b Hb']).
      exists f. rewrite Hfiles, Hbufs.
      * split; [done|]. split; [done|]. split; [done|]. by eexists.
      * congruence.
      * intros old Hold Heq. apply Hne. eapply Hinj; eauto.
      * congruence.
      * intros old Hold Heq. apply Hne. eapply Hinj; eauto.
  - intros n1 n2 e1 e2. rewrite Hc. intros H1 H2 Hshare.
    destruct (decide (name = n1)) as [<-|Hne1];
      destruct (decide (name = n2)) as [<-|Hne2]; [done| | |].
    + rewrite lookup_insert_eq in H1. rewrite lookup_insert_ne in H2 by done.
      injection H1 as <-. cbn in Hshare.
      destruct (Hlive _ _ H2) as (f & Hf' & _ & _ & [b Hb']).
      destruct Hshare; congruence.
    + rewrite lookup_insert_eq in H2. rewrite lookup_insert_ne in H1 by done.
      injection H2 as <-. cbn in Hshare.
      destruct (Hlive _ _ H1) as (f & Hf' & _ & _ & [b Hb']).
      destruct Hshare; congruence.
    + rewrite lookup_insert_ne in H1, H2 by done. by eapply Hinj.
Qed.

Lemma Prepare_wf name c : cache_wf c → cache_wf (Prepare name c).2.
Proof.
  intros [Hlive Hinj]. unfold Prepare.
  destruct (cached_bef_ c !! name) as [e|] eqn:He; [|done].
  split; cbn; [|done].
  intros name' e' He'.
  destruct (Hlive _ _ He') as (f & Hf & Hrefs & Hdata & Hb).
  destruct (decide (bef_file e = bef_file e')) as [Heq|Hne].
  - rewrite Heq, lookup_alter_eq, Hf. cbn. eexists. split; [done|].
    cbn. split; [lia|done].
  - rewrite lookup_alter_ne by done. by exists f.
Qed.

Lemma run_ops_wf (ops : list CacheOp) : cache_wf (run_ops open ops).
Proof.
  unfold run_ops. generalize cache_wf_empty. generalize empty_cache.
  induction ops as [|op ops IH]; intros c Hwf; cbn; [done|].
  apply IH. destruct op; cbn; [by apply Register_wf|by apply Prepare_wf].
Qed.

(** Only a registration under a name creates its entry. *)
Lemma Register_other name name' bytes c :
  name ≠ name' →
  cached_bef_ (Register open name bytes c).1 !! name' = cached_bef_ c !! name'.
Proof.
  intros Hne. unfold Register.
  destruct (open bytes) as [fns|]; [|done].
  cbv zeta. cbn [fst]. rewrite cached_DropRef. cbn [cached_bef_].
  rewrite lookup_insert_ne by done.
  unfold RC.CopyRef. cbn [cached_bef_ bef_files bef_buffers].
  destruct (cached_bef_ c !! name) as [old|] eqn:Hold;
    rewrite ?cached_DropRef; cbn [cached_bef_]; rewrite Hold;
    by cbn [cached_bef_].
Qed.

Lemma never_registered_absent (ops : list CacheOp) (name : string) :
  Forall (λ op, ¬ registers name op) ops →
  cached_bef_ (run_ops open ops) !! name = None.
Proof.
  unfold run_ops. assert (cached_bef_ empty_cache !! name = None) as Hnone
    by apply lookup_empty.
  revert Hnone. generalize empty_cache.
  induction ops as [|op ops IH]; intros c Hnone Hall; cbn; [done|].
  apply Forall_cons in Hall as [Hop Hall]. apply IH; [|done].
  destruct op as [name' bytes|name']; cbn in *.
  - by rewrite Register_other.
  - unfold Prepare. by destruct (cached_bef_ c !! name').
Qed.

End CacheProperties.

(** ** The loops of the execution path *)

Section Loops.

Variable env : Env.

Abbreviation V := (AsyncValue env).

(** The loop over the inputs fails exactly when some device does not
    resolve, and otherwise pushes the stored value of every input. *)
Lemma resolve_inputs_inr (ids : list WireObjectId)
    (m : gmap RemoteObjectId V) (args : list (option V)) :
  Forall (λ id, is_Some (GetDeviceRef env (device id))) ids →
  resolve_inputs env ids m args =
    inr (args ++ map (λ id, resolve env id ≫= GetRemoteObject env m) ids).
Proof.
  intros Hall. revert args.
  induction Hall as [|id ids [dev Hdev] _ IH]; intros args; cbn.
  - by rewrite app_nil_r.
  - unfold resolve. rewrite Hdev. cbn. rewrite IH.
    by rewrite <- app_assoc.
Qed.

Lemma resolve_inputs_inl (ids : list WireObjectId)
    (m : gmap RemoteObjectId V) (args : list (option V)) (dev : string) :
  resolve_inputs env ids m args = inl dev →
  ∃ id, id ∈ ids ∧ device id = dev ∧ GetDeviceRef env dev = None.
Proof.
  revert args. induction ids as [|id ids IH]; intros args; cbn; [done|].
  destruct (GetDeviceRef env (device id)) as [d|] eqn:Hdev.
  - intros H. destruct (IH _ H) as (id' & Hin & Heq & Hnone).
    exists id'. split; [apply elem_of_cons; by right|done].
  - intros [= <-]. exists id. split; [apply elem_of_cons; by left|done].
Qed.

Lemma resolve_inputs_cases (ids : list WireObjectId)
    (m : gmap RemoteObjectId V) (args : list (option V)) :
  (Forall (λ id, is_Some (GetDeviceRef env (device id))) ids ∧
   resolve_inputs env ids m args =
     inr (args ++ map (λ id, resolve env id ≫= GetRemoteObject env m) ids)) ∨
  (∃ dev, resolve_inputs env ids m args = inl dev ∧
          ¬ Forall (λ id, is_Some (GetDeviceRef env (device id))) ids).
Proof.
  destruct (resolve_inputs env ids m args) as [dev|args'] eqn:Hres.
  - right. exists dev. split; [done|]. intros Hall.
    rewrite (resolve_inputs_inr _ _ _ Hall) in Hres. done.
  - left. assert (Forall (λ id, is_Some (GetDeviceRef env (device id))) ids)
      as Hall.
    { clear -Hres. revert args Hres.
      induction ids as [|id ids IH]; intros args; cbn; [by constructor|].
      destruct (GetDeviceRef env (device id)) as [d|] eqn:Hdev; [|done].
      intros H. constructor; [by eexists|by eapply IH]. }
    split; [done|]. rewrite <- Hres. by apply resolve_inputs_inr.
Qed.

(** The loop over the outputs publishes the results of the outputs in
    front of the first device that does not resolve, in order, and reports
    that device. *)
Lemma publish_outputs_spec (outs : list Output) (i : nat) (results : list V)
    (m : gmap RemoteObjectId V) :
  i + length outs ≤ length results →
  publish_outputs env outs i results m =
    Finished (publish_all env (zip (resolved_prefix env outs) (drop i results)) m,
              published_events env
                (zip (resolved_prefix env outs) (drop i results)),
              (λ o, device (output_id o)) <$>
                outs !! length (resolved_prefix env outs)).
Proof.
  revert i m. induction outs as [|o outs IH]; intros i m Hlen; cbn in *.
  - done.
  - unfold resolve. destruct (GetDeviceRef env (device (output_id o)))
      as [dev|] eqn:Hdev; cbn; [|done].
    destruct (results !! i) as [v|] eqn:Hv.
    2:{ apply lookup_ge_None in Hv. lia. }
    rewrite IH by lia. by rewrite (drop_S _ _ _ Hv).
Qed.

Lemma resolved_prefix_length (outs : list Output) :
  length (resolved_prefix env outs) ≤ length outs.
Proof.
  induction outs as [|o outs IH]; cbn; [done|].
  destruct (resolve env (output_id o)); cbn; lia.
Qed.

Lemma resolved_prefix_lookup (outs : list Output) (j : nat) (id : RemoteObjectId) :
  resolved_prefix env outs !! j = Some id →
  ∃ o, outs !! j = Some o ∧ resolve env (output_id o) = Some id.
Proof.
  revert j. induction outs as [|o outs IH]; intros j; cbn; [done|].
  destruct (resolve env (output_id o)) as [id'|] eqn:Hres; [|done].
  destruct j as [|j]; cbn.
  - intros [= <-]. by exists o.
  - apply IH.
Qed.

Lemma resolved_prefix_stops (outs : list Output) (o : Output) :
  outs !! length (resolved_prefix env outs) = Some o →
  GetDeviceRef env (device (output_id o)) = None.
Proof.
  induction outs as [|o' outs IH]; cbn; [done|].
  unfold resolve.
  destruct (GetDeviceRef env (device (output_id o'))) as [d|] eqn:Hdev; cbn.
  - apply IH.
  - by intros [= <-].
Qed.

Lemma resolved_prefix_first (outs : list Output) (i : nat) :
  (∀ j o, j < i → outs !! j = Some o →
          is_Some (GetDeviceRef env (device (output_id o)))) →
  i ≤ length outs →
  (∀ o, outs !! i = Some o →
        GetDeviceRef env (device (output_id o)) = None) →
  length (resolved_prefix env outs) = i.
Proof.
  revert i. induction outs as [|o outs IH]; intros i Hbefore Hi Hat; cbn in *.
  - lia.
  - unfold resolve. destruct i as [|i].
    + by rewrite (Hat o eq_refl).
    + destruct (Hbefore 0 o) as [d Hd]; [lia|done|]. rewrite Hd. cbn.
      f_equal. apply IH.
      * intros j o' Hj Ho'. apply (Hbefore (S j) o'); [lia|done].
      * lia.
      * intros o' Ho'. by apply (Hat o').
Qed.

Local Arguments requested_metadata : simpl never.

Lemma requested_metadata_cons (o : Output) (outs : list Output) (v : V)
    (vs : list V) :
  requested_metadata env (o :: outs) (v :: vs) =
    (if need_metadata o then [SerializeTensorMetadata env v] else []) ++
    requested_metadata env outs vs.
Proof. unfold requested_metadata. cbn. by destruct (need_metadata o). Qed.

Lemma requested_metadata_nil (vs : list V) : requested_metadata env [] vs = [].
Proof. done. Qed.

(** The continuation's loop: either every output that asks for metadata
    has the tensor type and all of them are serialized, or the loop stops
    at the first one that has another type, with what it serialized so
    far still in the response. *)
Lemma serialize_outputs_spec (fn : Function) (results : list V)
    (outs : list Output) (i : nat) (response : RemoteExecuteInvocationResult) :
  i + length outs ≤ length (result_types fn) →
  i + length outs ≤ length results →
  ((∀ j o t, outs !! j = Some o → need_metadata o = true →
             result_types fn !! (i + j) = Some t → t = "!t.tensor") ∧
   serialize_outputs env fn results outs i response =
     Finished [Done (mkResult true
                 (metadata response ++
                  requested_metadata env outs (drop i results)))]) ∨
  (∃ n o t,
     outs !! n = Some o ∧ need_metadata o = true ∧
     result_types fn !! (i + n) = Some t ∧ t ≠ "!t.tensor" ∧
     (∀ j o' t', j < n → outs !! j = Some o' → need_metadata o' = true →
                 result_types fn !! (i + j) = Some t' → t' = "!t.tensor") ∧
     serialize_outputs env fn results outs i response =
       Finished [Log (InvalidType t);
                 Done (mkResult (ok response)
                   (metadata response ++
                    requested_metadata env (take n outs) (drop i results)))]).
Proof.
  revert i response.
  induction outs as [|o outs IH]; intros i response Htypes Hresults; cbn in *.
  - left. split; [done|]. by rewrite requested_metadata_nil, app_nil_r.
  - destruct (results !! i) as [v|] eqn:Hv.
    2:{ apply lookup_ge_None in Hv. lia. }
    destruct (result_types fn !! i) as [t|] eqn:Ht.
    2:{ apply lookup_ge_None in Ht. lia. }
    rewrite (drop_S _ _ _ Hv).
    destruct (need_metadata o) eqn:Hneed.
    + case_bool_decide as Htensor.
      * destruct (IH (S i) (mkResult (ok response)
                     (metadata response ++ [SerializeTensorMetadata env v])))
          as [[Hall Hrun]|(n & o' & t' & Hn & Hneed' & Ht' & Hbad & Hbefore & Hrun)];
          [lia|lia| |].
        -- left. split.
           ++ intros [|j] o' t'; cbn.
              ** rewrite Nat.add_0_r. intros [= <-] _. congruence.
              ** rewrite Nat.add_succ_r. apply Hall.
           ++ rewrite Hrun, requested_metadata_cons, Hneed. cbn.
              by rewrite <- app_assoc.
        -- right. exists (S n), o', t'. repeat split; try done.
           ++ by rewrite Nat.add_succ_r.
           ++ intros [|j] o'' t''; cbn.
              ** rewrite Nat.add_0_r. intros _ [= <-] _. congruence.
              ** rewrite Nat.add_succ_r. intros Hj. apply Hbefore. lia.
           ++ rewrite Hrun. cbn [take]. rewrite requested_metadata_cons, Hneed.
              cbn. by rewrite <- app_assoc.
      * right. exists 0, o, t. rewrite Nat.add_0_r. repeat split; try done.
        -- intros j o' t' Hj. lia.
        -- cbn [take]. rewrite requested_metadata_nil, app_nil_r.
           by destruct response.
    + destruct (IH (S i) response)
        as [[Hall Hrun]|(n & o' & t' & Hn & Hneed' & Ht' & Hbad & Hbefore & Hrun)];
        [lia|lia| |].
      * left. split.
        -- intros [|j] o' t'; cbn.
           ++ intros [= <-]. congruence.
           ++ rewrite Nat.add_succ_r. apply Hall.
        -- by rewrite Hrun, requested_metadata_cons, Hneed.
      * right. exists (S n), o', t'. repeat split; try done.
        -- by rewrite Nat.add_succ_r.
        -- intros [|j] o'' t''; cbn.
           ++ intros _ [= <-]. congruence.
           ++ rewrite Nat.add_succ_r. intros Hj. apply Hbefore. lia.
        -- rewrite Hrun. cbn [take]. by rewrite requested_metadata_cons, Hneed.
Qed.

End Loops.

(** ** Every request takes one of the paths *)

Section Paths.

Variable env : Env.

Lemma results_of_length (fn : Function) (args : list (option (AsyncValue env))) :
  length (results_of env fn args) = length (result_types fn).
Proof. unfold results_of. by rewrite length_map, length_seq. Qed.

(** Under the invariant, [Prepare] hands out the cached program and the
    release of the reference restores the cache. *)
Lemma Prepare_cached_program (c : FunctionCache) (name : string) :
  cache_wf c →
  match Prepare name c with
  | (None, c') => cached_program c name = None ∧ c' = c
  | (Some r, c') =>
      RC.get c' r = cached_program c name ∧ is_Some (cached_program c name) ∧
      RC.DropRef r c' = c
  end.
Proof.
  intros [Hlive _]. unfold Prepare, cached_program.
  destruct (cached_bef_ c !! name) as [e|] eqn:He; [|done].
  destruct (Hlive _ _ He) as (f & Hf & Hrefs & Hdata & [b Hb]).
  rewrite Hf. cbn. split; [|split; [by eexists|by eapply DropRef_CopyRef]].
  unfold RC.get, RC.CopyRef. cbn. rewrite lookup_alter_eq, Hf. cbn.
  by rewrite Hdata, Hb.
Qed.

(** The handler never performs an undefined access on a well-formed cache,
    it leaves the cache as it found it, and what it does is one of the
    paths of [outcome]. *)
Lemma serve_outcome (request : RemoteExecuteInvocation)
    (w : World (AsyncValue env)) :
  cache_wf (function_cache_ w) →
  ∃ m es,
    serve env request w =
      Finished (mkWorld (function_cache_ w) m (trace w ++ es)) ∧
    outcome env request (function_cache_ w) (remote_objects w) m es.
Proof.
  intros Hwf.
  pose proof (Prepare_cached_program (function_cache_ w)
                (program_name request) Hwf) as Hprep.
  unfold serve, HandleRemoteExecute.
  destruct (Prepare (program_name request) (function_cache_ w)) as [[r|] c'].
  2:{ destruct Hprep as [Hnone ->]. eexists _, _. split; [done|].
      by constructor. }
  destruct Hprep as (Hget & [fns Hfns] & Hdrop). rewrite Hget, Hfns, Hdrop.
  unfold execute_prepared.
  destruct (GetFunction fns (program_name request)) as [fn|] eqn:Hfn.
  2:{ eexists _, _. split; [done|]. by eapply out_no_function. }
  case_bool_decide as Hres.
  { eexists _, _. split; [done|]. by eapply out_result_mismatch. }
  case_bool_decide as Hargs.
  { eexists _, _. split; [done|]. by eapply out_argument_mismatch. }
  fold (context_arguments env fn).
  destruct (resolve_inputs env (inputs request) (remote_objects w)
              (context_arguments env fn)) as [dev|args] eqn:Hin.
  { eexists _, _. split; [done|]. by eapply out_input_device. }
  fold (results_of env fn args).
  rewrite publish_outputs_spec
    by (rewrite results_of_length; cbn; lia).
  rewrite drop_0.
  set (pubs := zip (resolved_prefix env (outputs request))
                   (results_of env fn args)).
  destruct (outputs request !! length (resolved_prefix env (outputs request)))
    as [o|] eqn:Ho; cbn [fmap option_fmap option_map].
  { eexists _, _. split; [done|]. by eapply out_output_device. }
  apply lookup_ge_None in Ho.
  pose proof (resolved_prefix_length env (outputs request)) as Hle.
  assert (length (resolved_prefix env (outputs request)) =
          length (outputs request)) as Hall by lia.
  unfold RunWhenReady, run_continuation. cbn [k_fn k_results k_request k_response].
  destruct (serialize_outputs_spec env fn (results_of env fn args)
              (outputs request) 0 (mkResult false []))
    as [[Htypes Hrun]|(n & o & t & Hn & Hneed & Ht & Hbad & Hbefore & Hrun)];
    [cbn; lia|rewrite results_of_length; cbn; lia| |];
    rewrite Hrun; unfold emit; cbn; rewrite drop_0, <- app_assoc; cbn.
  - eexists _, _. split; [done|]. by eapply out_success.
  - eexists _, _. split; [done|]. by eapply out_invalid_type.
Qed.

(** A request always runs to its end and keeps the cache, hence its
    invariant. *)
Lemma serve_keeps_cache (request : RemoteExecuteInvocation)
    (w : World (AsyncValue env)) :
  cache_wf (function_cache_ w) →
  ∃ w', serve env request w = Finished w' ∧
        function_cache_ w' = function_cache_ w ∧
        cache_wf (function_cache_ w').
Proof.
  intros Hwf. destruct (serve_outcome request w Hwf) as (m & es & Hs & _).
  eexists. split; [exact Hs|]. by split.
Qed.

End Paths.

(** ** Events, arguments and failures *)

Lemma HandleRemoteRegister_wf (env : Env) (request : RemoteRegisterInvocation)
    (w : World (AsyncValue env)) :
  cache_wf (function_cache_ w) →
  cache_wf (function_cache_ (HandleRemoteRegister env request w)).
Proof.
  intros Hwf. unfold HandleRemoteRegister.
  destruct (ConvertMLIRSrcToBEF env (program request)) as [|b bytes]; [done|].
  pose proof (Register_wf (BEFFile_Open env) (register_program_name request)
                (b :: bytes) _ Hwf) as Hwf'.
  by destruct (Register (BEFFile_Open env) (register_program_name request)
                 (b :: bytes) (function_cache_ w)).
Qed.

(** What a second registration under a name does to the first program:
    the entry's buffer is move-assigned, so the bytes of the displaced
    program are freed, whoever still holds a reference to it. *)
Lemma Register_displaced (open : BEFBuffer → option (list Function))
    (c : FunctionCache) (name : string) (bytes : BEFBuffer)
    (fns : list Function) (old : CachedBEF) :
  cache_wf c → open bytes = Some fns →
  cached_bef_ c !! name = Some old →
  bef_buffers (Register open name bytes c).1 !! bef_buffer old = None.
Proof.
  intros [Hlive _] Hopen Hold.
  destruct (Hlive _ _ Hold) as (f & Hf & Hrefs & Hdata & [b Hb]).
  pose proof (fresh_buffer_free c) as Hba.
  unfold Register. rewrite Hopen. cbv zeta. unfold RC.CopyRef.
  cbn [cached_bef_ bef_files bef_buffers fst].
  repeat progress
    (rewrite ?buffers_DropRef, ?cached_DropRef, ?Hold;
     cbn [cached_bef_ bef_files bef_buffers]).
  by rewrite lookup_delete_eq.
Qed.

Lemma Register_dangles (open : BEFBuffer → option (list Function))
    (c : FunctionCache) (name : string) (bytes : BEFBuffer)
    (fns : list Function) (old : CachedBEF) :
  cache_wf c → open bytes = Some fns →
  cached_bef_ c !! name = Some old →
  RC.get (Register open name bytes c).1 (bef_file old) = None.
Proof.
  intros Hwf Hopen Hold.
  pose proof (Register_displaced open c name bytes fns old Hwf Hopen Hold)
    as Hfreed.
  destruct Hwf as [Hlive _].
  destruct (Hlive _ _ Hold) as (f & Hf & Hrefs & Hdata & [b Hb]).
  pose proof (fresh_file_free c) as Hfa.
  assert (fresh (dom (bef_files c)) ≠ bef_file old) as Hne by congruence.
  unfold RC.get.
  destruct (bef_files (Register open name bytes c).1 !! bef_file old)
    as [f'|] eqn:Hf'; [|done].
  assert (file_data f' = bef_buffer old) as ->; [|by rewrite Hfreed].
  revert Hf'. unfold Register. rewrite Hopen. cbv zeta. unfold RC.CopyRef.
  cbn [cached_bef_ bef_files bef_buffers fst].
  rewrite files_DropRef_ne by done. cbn [cached_bef_ bef_files bef_buffers].
  repeat progress
    (rewrite ?cached_DropRef, ?Hold;
     cbn [cached_bef_ bef_files bef_buffers]).
  erewrite files_DropRef_eq.
  2:{ cbn [bef_files]. by rewrite lookup_alter_ne, lookup_insert_ne. }
  destruct (file_refs f) as [|[|n]]; [done|done|].
  intros [= <-]. done.
Qed.

Section Events.

Context {V : Type}.

Lemma count_done_app (es1 es2 : list (Event V)) :
  count_done (es1 ++ es2) = count_done es1 + count_done es2.
Proof.
  induction es1 as [|e es1 IH]; cbn; [done|]. destruct e; cbn; lia.
Qed.

End Events.

Section Execution.

Variable env : Env.

Lemma count_done_published (pubs : list (RemoteObjectId * AsyncValue env)) :
  count_done (published_events env pubs) = 0.
Proof. induction pubs as [|p pubs IH]; cbn; done. Qed.

Lemma Done_not_published (r : RemoteExecuteInvocationResult)
    (pubs : list (RemoteObjectId * AsyncValue env)) :
  Done r ∉ published_events env pubs.
Proof.
  unfold published_events. intros (p & Hp & _)%list_elem_of_fmap. done.
Qed.

Lemma Executed_not_published (fn : Function)
    (args : list (option (AsyncValue env)))
    (pubs : list (RemoteObjectId * AsyncValue env)) :
  Executed fn args ∉ published_events env pubs.
Proof.
  unfold published_events. intros (p & Hp & _)%list_elem_of_fmap. done.
Qed.

(** Membership in the events of a path that got as far as the call. *)
Lemma Done_after_call (r : RemoteExecuteInvocationResult) (fn : Function)
    (args : list (option (AsyncValue env)))
    (pubs : list (RemoteObjectId * AsyncValue env))
    (rest : list (Event (AsyncValue env))) :
  Done r ∈ Executed fn args :: published_events env pubs ++ rest →
  Done r ∈ rest.
Proof.
  rewrite elem_of_cons, elem_of_app. intros [?|[H|?]]; [done| |done].
  by apply Done_not_published in H.
Qed.

Lemma Executed_after_call (fn' fn : Function)
    (args' args : list (option (AsyncValue env)))
    (pubs : list (RemoteObjectId * AsyncValue env))
    (rest : list (Event (AsyncValue env))) :
  Executed fn' args' ∈ Executed fn args :: published_events env pubs ++ rest →
  (fn' = fn ∧ args' = args) ∨ Executed fn' args' ∈ rest.
Proof.
  rewrite elem_of_cons, elem_of_app. intros [[= -> ->]|[H|?]]; [by left| |by right].
  by apply Executed_not_published in H.
Qed.

(** On every path but one the callback is invoked exactly once; on the
    path of the argument-count mismatch it is not invoked. *)
Lemma done_once_unless_argument_mismatch (request : RemoteExecuteInvocation)
    (w : World (AsyncValue env)) :
  cache_wf (function_cache_ w) →
  ∃ m es,
    serve env request w =
      Finished (mkWorld (function_cache_ w) m (trace w ++ es)) ∧
    (count_done es = 1 ∨
     count_done es = 0 ∧
     ∃ fns fn,
       cached_program (function_cache_ w) (program_name request) = Some fns ∧
       GetFunction fns (program_name request) = Some fn ∧
       length (result_types fn) = length (outputs request) ∧
       length (argument_types fn) ≠
         (if takes_context fn then 1 else 0) + length (inputs request)).
Proof.
  intros Hwf. destruct (serve_outcome env request w Hwf) as (m & es & Hs & Hout).
  exists m, es. split; [done|].
  destruct Hout; cbn;
    rewrite ?count_done_app, ?count_done_published; cbn; eauto 10.
Qed.

Lemma requested_metadata_length (outs : list Output)
    (values : list (AsyncValue env)) :
  length outs = length values →
  length (requested_metadata env outs values) =
    length (filter (λ o, need_metadata o = true) outs).
Proof.
  revert values. induction outs as [|o outs IH]; intros [|v values] Hlen;
    cbn in Hlen; try done.
  rewrite filter_cons. unfold requested_metadata in *. cbn [zip zip_with omap list_omap fst snd].
  destruct (need_metadata o); cbn [length].
  - rewrite decide_True by done. cbn [length]. rewrite IH by lia. done.
  - rewrite decide_False by done. apply IH. lia.
Qed.

End Execution.

Section Dispatch.

Variable env : Env.

Lemma resolve_inputs_inr_inv (ids : list WireObjectId)
    (m : gmap RemoteObjectId (AsyncValue env))
    (args0 args : list (option (AsyncValue env))) :
  resolve_inputs env ids m args0 = inr args →
  Forall (λ id, is_Some (GetDeviceRef env (device id))) ids ∧
  args = args0 ++ map (λ id, resolve env id ≫= GetRemoteObject env m) ids.
Proof.
  intros Hres.
  destruct (resolve_inputs_cases env ids m args0) as [[Hall Heq]|(dev & Heq & _)];
    [split; [done|congruence]|congruence].
Qed.

Lemma resolve_inputs_inl_inv (ids : list WireObjectId)
    (m : gmap RemoteObjectId (AsyncValue env))
    (args0 : list (option (AsyncValue env))) (dev : string) :
  resolve_inputs env ids m args0 = inl dev →
  ¬ Forall (λ id, is_Some (GetDeviceRef env (device id))) ids.
Proof.
  intros Hres.
  destruct (resolve_inputs_cases env ids m args0) as [[Hall Heq]|(dev' & _ & Hnot)];
    congruence.
Qed.

Lemma results_of_lookup (fn : Function)
    (args : list (option (AsyncValue env))) (j : nat) :
  j < length (result_types fn) →
  results_of env fn args !! j = Some (Execute env fn args j).
Proof.
  intros Hj. unfold results_of.
  change (map ?f ?l) with (f <$> l).
  by rewrite list_lookup_fmap, lookup_seq_lt.
Qed.

End Dispatch.

Section Failures.

Variable env : Env.

(** A request with an input whose device does not resolve publishes
    nothing and invokes nothing; what it answers, if it answers, is the
    failure response; and it answers unless the argument count is wrong. *)
Lemma unresolvable_input_fails (request : RemoteExecuteInvocation)
    (w : World (AsyncValue env)) (id : WireObjectId) :
  cache_wf (function_cache_ w) →
  id ∈ inputs request → GetDeviceRef env (device id) = None →
  ∃ es,
    serve env request w =
      Finished (mkWorld (function_cache_ w) (remote_objects w)
                        (trace w ++ es)) ∧
    (∀ fn args, Executed fn args ∉ es) ∧
    (∀ oid v, Published oid v ∉ es) ∧
    (∀ r, Done r ∈ es → r = mkResult false []) ∧
    (count_done es = 1 ∨
     ∃ fns fn,
       cached_program (function_cache_ w) (program_name request) = Some fns ∧
       GetFunction fns (program_name request) = Some fn ∧
       length (argument_types fn) ≠
         (if takes_context fn then 1 else 0) + length (inputs request)).
Proof.
  intros Hwf Hid Hdev.
  assert (¬ Forall (λ id, is_Some (GetDeviceRef env (device id)))
            (inputs request)) as Hnot.
  { intros Hall. rewrite Forall_forall in Hall.
    destruct (Hall id Hid) as [d Hd]. congruence. }
  destruct (serve_outcome env request w Hwf) as (m & es & Hs & Hout).
  destruct Hout;
    try match goal with
        | H : resolve_inputs _ _ _ _ = inr _ |- _ =>
            by apply resolve_inputs_inr_inv in H as [Hall _]
        end;
    (eexists; split; [exact Hs|]);
    (split; [|split; [|split]]);
    try (intros ? ? Hin;
         repeat (apply elem_of_cons in Hin as [Hin|Hin]; [done|]);
         by apply elem_of_nil in Hin);
    try (intros ? Hin;
         repeat (apply elem_of_cons in Hin as [Hin|Hin];
                 [try done; by injection Hin as ->|]);
         by apply elem_of_nil in Hin);
    try (by left); eauto 10.
Qed.

End Failures.

(** A registration keeps the sample worlds well formed. *)
Lemma registered_wf (program : string) :
  cache_wf (function_cache_ (Sample.registered program)).
Proof.
  apply (HandleRemoteRegister_wf Sample.env). apply cache_wf_empty.
Qed.

(** * The claims *)

(** C1.  The completion callback is to be invoked exactly once on every
    path.  For the program [A], whose function takes no argument, and a
    request with one input, the handler logs the argument-count mismatch
    and returns: the callback is never invoked. *)
Theorem argument_mismatch_never_answers :
  ∃ w', serve Sample.env
          (mkRemoteExecuteInvocation "p" "p" [Sample.on_cpu 1] [])
          (Sample.registered "A") = Finished w' ∧
        trace w' = [Log (ArgumentSizeMismatch 0 1)] ∧
        count_done (trace w') = 0.
Proof. eexists. by vm_compute. Qed.

(** C2, as stated, fails: the function [p] of program [B] returns a tensor
    and an integer; with metadata requested for both outputs the response
    has [ok = false] and carries the metadata of the first. *)
Lemma partial_metadata_exposed :
  ∃ w' r,
    serve Sample.env
      (mkRemoteExecuteInvocation "p" "p" [Sample.on_cpu 1]
         [mkOutput (Sample.on_cpu 2) true; mkOutput (Sample.on_cpu 3) true])
      (Sample.registered "B") = Finished w' ∧
    Done r ∈ trace w' ∧ ok r = false ∧ metadata r = ["meta:p#0"].
Proof.
  eexists _, (mkResult false ["meta:p#0"]).
  split; [by vm_compute|]. split; [|done].
  apply list_elem_of_lookup. by exists 4.
Qed.

(** C3, as stated, fails: program [B] has the functions [p] and [f].  A
    request for the program [p] that names the entry function [f] runs the
    function [p]: the handler looks the function up under the program
    name. *)
Lemma entry_function_ignored :
  let request :=
    mkRemoteExecuteInvocation "p" "f" [Sample.on_cpu 1]
      [mkOutput (Sample.on_cpu 2) true; mkOutput (Sample.on_cpu 3) false] in
  ∃ w' fn args,
    serve Sample.env request (Sample.registered "B") = Finished w' ∧
    is_Some (GetFunction Sample.program_B (entry_function request)) ∧
    Executed fn args ∈ trace w' ∧
    fn_name fn = "p" ∧
    GetFunction Sample.program_B (entry_function request) ≠ Some fn.
Proof.
  eexists _, (mkFunction "p" [Sample.context_t; Sample.tensor_t]
                         [Sample.tensor_t; "i32"]), _.
  split; [by vm_compute|]. split; [by eexists; vm_compute|].
  split; [apply list_elem_of_lookup; by exists 0|]. split; [done|].
  by vm_compute.
Qed.

(** C3, amended.  The function invoked is the one the prepared program
    has under the request's program name, whatever entry function the
    request names; if the program has no function of that name the
    response is a failure, delivered through the callback. *)
Theorem function_resolved_by_program_name (env : Env)
    (request : RemoteExecuteInvocation) (w : World (AsyncValue env)) :
  cache_wf (function_cache_ w) →
  ∃ m es,
    serve env request w =
      Finished (mkWorld (function_cache_ w) m (trace w ++ es)) ∧
    (∀ fn args, Executed fn args ∈ es →
       ∃ fns,
         cached_program (function_cache_ w) (program_name request) = Some fns ∧
         GetFunction fns (program_name request) = Some fn) ∧
    (∀ fns,
       cached_program (function_cache_ w) (program_name request) = Some fns →
       GetFunction fns (program_name request) = None →
       m = remote_objects w ∧
       es = [Log (FailedToGetProgram (program_name request));
             Done (mkResult false [])]) ∧
    (∀ name,
       serve env
         (mkRemoteExecuteInvocation (program_name request) name
            (inputs request) (outputs request)) w = serve env request w).
Proof.
  intros Hwf. destruct (serve_outcome env request w Hwf) as (m & es & Hs & Hout).
  exists m, es. split; [done|]. split; [|split].
  - intros fn' args' Hex.
    destruct Hout; try apply Executed_after_call in Hex as [[-> ->]|Hex];
      repeat (apply elem_of_cons in Hex as [Hex|Hex]; [done|]);
      try (by apply elem_of_nil in Hex); eauto.
  - intros fns' Hfns' Hnone.
    destruct Hout; try done; congruence.
  - intros name. destruct request as [pn ef ins outs].
    unfold serve, HandleRemoteExecute, execute_prepared.
    cbn [program_name inputs outputs].
    destruct (Prepare pn (function_cache_ w)) as [[r|] c']; [|done].
    destruct (RC.get c' r) as [fns|]; [|done].
    destruct (GetFunction fns pn) as [fn|]; [|done].
    repeat case_bool_decide; try done.
    destruct (resolve_inputs env ins (remote_objects w) _) as [dev|args];
      [done|].
    destruct (publish_outputs env outs 0 _ (remote_objects w))
      as [[[m' es'] [dev|]]|]; done.
Qed.

Lemma function_resolved_by_program_name_witness :
  let request :=
    mkRemoteExecuteInvocation "p" "f" [Sample.on_cpu 1]
      [mkOutput (Sample.on_cpu 2) true; mkOutput (Sample.on_cpu 3) false] in
  let w := Sample.registered "B" in
  cache_wf (function_cache_ w) ∧
  ∃ m es,
    serve Sample.env request w =
      Finished (mkWorld (function_cache_ w) m (trace w ++ es)) ∧
    (∀ fn args, Executed fn args ∈ es →
       ∃ fns,
         cached_program (function_cache_ w) (program_name request) = Some fns ∧
         GetFunction fns (program_name request) = Some fn) ∧
    (∀ fns,
       cached_program (function_cache_ w) (program_name request) = Some fns →
       GetFunction fns (program_name request) = None →
       m = remote_objects w ∧
       es = [Log (FailedToGetProgram (program_name request));
             Done (mkResult false [])]) ∧
    (∀ name,
       serve Sample.env
         (mkRemoteExecuteInvocation (program_name request) name
            (inputs request) (outputs request)) w =
       serve Sample.env request w).
Proof.
  intros request w. split; [apply registered_wf|].
  apply (function_resolved_by_program_name Sample.env request w).
  apply registered_wf.
Defined.

(** C4.  After a successful [Register(name, bytes)], [Prepare(name)] returns
    a non-null reference to a program whose functions are those encoded in
    the bytes; and [Prepare] of a name that was never registered returns
    the null reference. *)
Theorem Prepare_after_Register (open : BEFBuffer → option (list Function))
    (c : FunctionCache) (name : string) (bytes : BEFBuffer)
    (fns : list Function) :
  cache_wf c → open bytes = Some fns →
  (∃ r c', Prepare name (Register open name bytes c).1 = (Some r, c') ∧
           RC.get c' r = Some fns) ∧
  (∀ ops name', Forall (λ op, ¬ registers name' op) ops →
                (Prepare name' (run_ops open ops)).1 = None).
Proof.
  intros Hwf Hopen. split.
  - destruct (Register_success open name bytes fns c Hwf Hopen)
      as (_ & Hc & Hf & Hb & _).
    unfold Prepare. rewrite Hc, lookup_insert_eq. cbn.
    eexists _, _. split; [done|].
    unfold RC.get, RC.CopyRef. cbn. rewrite lookup_alter_eq, Hf. cbn.
    by rewrite Hb.
  - intros ops name' Hnever. unfold Prepare.
    by rewrite never_registered_absent.
Qed.

Lemma Prepare_after_Register_witness :
  cache_wf empty_cache ∧ Sample.open ["A"%byte] = Some Sample.program_A ∧
  ((∃ r c', Prepare "p" (Register Sample.open "p" ["A"%byte] empty_cache).1
              = (Some r, c') ∧
            RC.get c' r = Some Sample.program_A) ∧
   (∀ ops name', Forall (λ op, ¬ registers name' op) ops →
                 (Prepare name' (run_ops Sample.open ops)).1 = None)).
Proof.
  split; [apply cache_wf_empty|]. split; [reflexivity|].
  apply (Prepare_after_Register Sample.open empty_cache "p" ["A"%byte]
           Sample.program_A); [apply cache_wf_empty|reflexivity].
Defined.

(** C5.  [Register("p", b1)], [Prepare("p")], [Register("p", b2)]: the next
    [Prepare("p")] returns [b2]'s program, and the object behind the
    reference taken before is still alive, but the bytes it references
    into were freed by the second registration, so the reference no longer
    gives access to [b1]'s program. *)
Theorem reregistration_frees_held_program :
  let c1 := (Register Sample.open "p" ["A"%byte] empty_cache).1 in
  let held := Prepare "p" c1 in
  let c3 := (Register Sample.open "p" ["B"%byte] held.2).1 in
  (∃ r, held.1 = Some r ∧
        RC.get held.2 r = Some Sample.program_A ∧
        is_Some (bef_files c3 !! r) ∧
        RC.get c3 r = None) ∧
  (∃ r', (Prepare "p" c3).1 = Some r' ∧
         RC.get (Prepare "p" c3).2 r' = Some Sample.program_B).
Proof.
  split.
  - exists 1%positive. repeat split; try by vm_compute.
    by eexists; vm_compute.
  - exists 2%positive. by vm_compute.
Qed.

(** C6.  If the compiler yields no bytes, or the bytes do not parse, the
    registration leaves the cache as it was, no entry created or replaced,
    and the failure is only logged. *)
Theorem failed_registration_leaves_cache (env : Env)
    (request : RemoteRegisterInvocation) (w : World (AsyncValue env)) :
  ConvertMLIRSrcToBEF env (program request) = [] ∨
  BEFFile_Open env (ConvertMLIRSrcToBEF env (program request)) = None →
  function_cache_ (HandleRemoteRegister env request w) = function_cache_ w ∧
  remote_objects (HandleRemoteRegister env request w) = remote_objects w ∧
  ∃ d, trace (HandleRemoteRegister env request w) = trace w ++ [Log d].
Proof.
  intros Hfail. unfold HandleRemoteRegister.
  destruct (ConvertMLIRSrcToBEF env (program request)) as [|b bytes] eqn:Hconv.
  - cbn. eauto.
  - destruct Hfail as [Hempty|Hparse]; [done|].
    rewrite (Register_parse_failure _ _ _ _ Hparse). cbn. eauto.
Qed.

Lemma failed_registration_leaves_cache_witness :
  (ConvertMLIRSrcToBEF Sample.env "Z" = [] ∨
   BEFFile_Open Sample.env (ConvertMLIRSrcToBEF Sample.env "Z") = None) ∧
  let w' := HandleRemoteRegister Sample.env
              (mkRemoteRegisterInvocation "p" "Z") (Sample.registered "A") in
  function_cache_ w' = function_cache_ (Sample.registered "A") ∧
  remote_objects w' = remote_objects (Sample.registered "A") ∧
  ∃ d, trace w' = trace (Sample.registered "A") ++ [Log d].
Proof.
  split; [right; reflexivity|].
  apply (failed_registration_leaves_cache Sample.env
           (mkRemoteRegisterInvocation "p" "Z") (Sample.registered "A")).
  right. reflexivity.
Defined.

(** C7, as stated, fails: the function [p] of program [C] takes one
    tensor and not the context, and the request has one input, so the
    counts are equal; but the input's device does not resolve, and the
    function is not invoked. *)
Lemma matching_count_not_invoked :
  let request := mkRemoteExecuteInvocation "p" "p" [Sample.on_gpu 1] [] in
  ∃ w' fn,
    serve Sample.env request (Sample.registered "C") = Finished w' ∧
    GetFunction Sample.program_C (program_name request) = Some fn ∧
    takes_context fn = false ∧
    length (argument_types fn) = length (inputs request) ∧
    ∀ fn' args, Executed fn' args ∉ trace w'.
Proof.
  eexists _, _. split; [by vm_compute|]. split; [by vm_compute|].
  split; [done|]. split; [done|].
  intros fn' args Hin. cbn [trace] in Hin.
  repeat (apply elem_of_cons in Hin as [Hin|Hin]; [done|]).
  by apply elem_of_nil in Hin.
Qed.

(** C7, amended.  For a request whose function resolves: the function is
    invoked iff the result count equals the output count, the declared
    argument count equals the input count (plus one when the first
    declared argument is the context) and every input device resolves; it
    is then invoked on the context, when it takes it, followed by the
    stored values of the inputs.  On a mismatch of the argument count
    nothing is published and no response reports success. *)
Theorem invoked_iff_counts_and_devices (env : Env)
    (request : RemoteExecuteInvocation) (w : World (AsyncValue env))
    (fns : list Function) (fn : Function) :
  cache_wf (function_cache_ w) →
  cached_program (function_cache_ w) (program_name request) = Some fns →
  GetFunction fns (program_name request) = Some fn →
  ∃ m es,
    serve env request w =
      Finished (mkWorld (function_cache_ w) m (trace w ++ es)) ∧
    ((∃ fn' args, Executed fn' args ∈ es) ↔
     length (result_types fn) = length (outputs request) ∧
     length (argument_types fn) =
       (if takes_context fn then 1 else 0) + length (inputs request) ∧
     Forall (λ id, is_Some (GetDeviceRef env (device id))) (inputs request)) ∧
    (∀ fn' args, Executed fn' args ∈ es →
       fn' = fn ∧
       args = (if takes_context fn then [Some (dist_ctx_ env)] else []) ++
              map (λ id, resolve env id ≫=
                         GetRemoteObject env (remote_objects w))
                  (inputs request)) ∧
    (length (argument_types fn) ≠
       (if takes_context fn then 1 else 0) + length (inputs request) →
     m = remote_objects w ∧
     (∀ r, Done r ∈ es → ok r = false) ∧
     (∀ id v, Published id v ∉ es)).
Proof.
  intros Hwf Hfns Hfn.
  destruct (serve_outcome env request w Hwf) as (m & es & Hs & Hout).
  exists m, es. split; [done|].
  destruct Hout; simplify_eq;
    try match goal with
        | H : resolve_inputs _ _ _ _ = inr _ |- _ =>
            apply resolve_inputs_inr_inv in H as [Hall ->]
        | H : resolve_inputs _ _ _ _ = inl _ |- _ =>
            apply resolve_inputs_inl_inv in H
        end.
  - (* result count *)
    split; [split|split].
    + intros (fn' & args & Hin).
      repeat (apply elem_of_cons in Hin as [Hin|Hin]; [done|]).
      by apply elem_of_nil in Hin.
    + intros (? & _). done.
    + intros fn' args Hin.
      repeat (apply elem_of_cons in Hin as [Hin|Hin]; [done|]).
      by apply elem_of_nil in Hin.
    + intros _. split; [done|]. split.
      * intros r Hin.
        repeat (apply elem_of_cons in Hin as [Hin|Hin];
                [try done; by injection Hin as ->|]).
        by apply elem_of_nil in Hin.
      * intros id v Hin.
        repeat (apply elem_of_cons in Hin as [Hin|Hin]; [done|]).
        by apply elem_of_nil in Hin.
  - (* argument count *)
    split; [split|split].
    + intros (fn' & args & Hin).
      repeat (apply elem_of_cons in Hin as [Hin|Hin]; [done|]).
      by apply elem_of_nil in Hin.
    + intros (_ & ? & _). done.
    + intros fn' args Hin.
      repeat (apply elem_of_cons in Hin as [Hin|Hin]; [done|]).
      by apply elem_of_nil in Hin.
    + intros _. split; [done|]. split.
      * intros r Hin.
        repeat (apply elem_of_cons in Hin as [Hin|Hin]; [done|]).
        by apply elem_of_nil in Hin.
      * intros id v Hin.
        repeat (apply elem_of_cons in Hin as [Hin|Hin]; [done|]).
        by apply elem_of_nil in Hin.
  - (* input device *)
    split; [split|split].
    + intros (fn' & args & Hin).
      repeat (apply elem_of_cons in Hin as [Hin|Hin]; [done|]).
      by apply elem_of_nil in Hin.
    + intros (_ & _ & ?). done.
    + intros fn' args Hin.
      repeat (apply elem_of_cons in Hin as [Hin|Hin]; [done|]).
      by apply elem_of_nil in Hin.
    + intros ?. done.
  - (* output device *)
    split; [split|split].
    + done.
    + intros _. eexists _, _. apply elem_of_cons. by left.
    + intros fn' args Hin.
      apply Executed_after_call in Hin as [[-> ->]|Hin]; [done|].
      repeat (apply elem_of_cons in Hin as [Hin|Hin]; [done|]).
      by apply elem_of_nil in Hin.
    + intros ?. done.
  - (* invalid type *)
    split; [split|split].
    + done.
    + intros _. eexists _, _. apply elem_of_cons. by left.
    + intros fn' args' Hin.
      apply Executed_after_call in Hin as [[-> ->]|Hin]; [done|].
      repeat (apply elem_of_cons in Hin as [Hin|Hin]; [done|]).
      by apply elem_of_nil in Hin.
    + intros ?. done.
  - (* success *)
    split; [split|split].
    + done.
    + intros _. eexists _, _. apply elem_of_cons. by left.
    + intros fn' args' Hin.
      apply Executed_after_call in Hin as [[-> ->]|Hin]; [done|].
      repeat (apply elem_of_cons in Hin as [Hin|Hin]; [done|]).
      by apply elem_of_nil in Hin.
    + intros ?. done.
Qed.

Lemma invoked_iff_counts_and_devices_witness :
  let request :=
    mkRemoteExecuteInvocation "p" "p" [Sample.on_cpu 1]
      [mkOutput (Sample.on_cpu 2) true; mkOutput (Sample.on_cpu 3) false] in
  let w := Sample.registered "B" in
  let fn := mkFunction "p" [Sample.context_t; Sample.tensor_t]
                       [Sample.tensor_t; "i32"] in
  cache_wf (function_cache_ w) ∧
  cached_program (function_cache_ w) "p" = Some Sample.program_B ∧
  GetFunction Sample.program_B "p" = Some fn ∧
  ∃ m es,
    serve Sample.env request w =
      Finished (mkWorld (function_cache_ w) m (trace w ++ es)) ∧
    ((∃ fn' args, Executed fn' args ∈ es) ↔
     length (result_types fn) = length (outputs request) ∧
     length (argument_types fn) =
       (if takes_context fn then 1 else 0) + length (inputs request) ∧
     Forall (λ id, is_Some (GetDeviceRef Sample.env (device id)))
            (inputs request)) ∧
    (∀ fn' args, Executed fn' args ∈ es →
       fn' = fn ∧
       args = (if takes_context fn then [Some (dist_ctx_ Sample.env)] else []) ++
              map (λ id, resolve Sample.env id ≫=
                         GetRemoteObject Sample.env (remote_objects w))
                  (inputs request)) ∧
    (length (argument_types fn) ≠
       (if takes_context fn then 1 else 0) + length (inputs request) →
     m = remote_objects w ∧
     (∀ r, Done r ∈ es → ok r = false) ∧
     (∀ id v, Published id v ∉ es)).
Proof.
  intros request w fn.
  split; [apply registered_wf|]. split; [by vm_compute|].
  split; [by vm_compute|].
  apply (invoked_iff_counts_and_devices Sample.env request w
           Sample.program_B fn);
    [apply registered_wf|by vm_compute|by vm_compute].
Defined.

(** C8.  A request with an input on an unknown device is to be answered
    with [ok = false].  For the program [A], whose function takes no
    argument, such a request fails the argument-count check first, and
    the handler returns without invoking the callback: no response. *)
Theorem unresolvable_input_without_response :
  let request := mkRemoteExecuteInvocation "p" "p" [Sample.on_gpu 1] [] in
  ∃ w',
    serve Sample.env request (Sample.registered "A") = Finished w' ∧
    GetDeviceRef Sample.env (device (Sample.on_gpu 1)) = None ∧
    remote_objects w' = remote_objects (Sample.registered "A") ∧
    trace w' = [Log (ArgumentSizeMismatch 0 1)] ∧
    count_done (trace w') = 0.
Proof. eexists. by vm_compute. Qed.

(** The case the specification singles out: results [A, B], metadata asked
    for the first output only; the one entry is the metadata of [A]. *)
Example output_ordering :
  ∃ w',
    serve Sample.env
      (mkRemoteExecuteInvocation "p" "p" [Sample.on_cpu 1]
         [mkOutput (Sample.on_cpu 2) true; mkOutput (Sample.on_cpu 3) false])
      (Sample.registered "B") = Finished w' ∧
    last (trace w') = Some (Done (mkResult true ["meta:p#0"])).
Proof. eexists. by vm_compute. Qed.

(** C10, as stated, fails: with two outputs, both on the unknown device,
    the device of the output at position 1 does not resolve, but the loop
    has stopped at position 0: the result of output 0 is not published,
    the store is as it was when the failure response is delivered. *)
Lemma nothing_published_after_earlier_failure :
  let request :=
    mkRemoteExecuteInvocation "p" "p" [Sample.on_cpu 1]
      [mkOutput (Sample.on_gpu 2) true; mkOutput (Sample.on_gpu 3) false] in
  ∃ w' o,
    serve Sample.env request (Sample.registered "B") = Finished w' ∧
    outputs request !! 1 = Some o ∧
    GetDeviceRef Sample.env (device (output_id o)) = None ∧
    Done (mkResult false []) ∈ trace w' ∧
    (∀ id v, Published id v ∉ trace w') ∧
    remote_objects w' = remote_objects (Sample.registered "B").
Proof.
  eexists _, _. split; [by vm_compute|]. split; [done|].
  split; [by vm_compute|]. split; [apply list_elem_of_lookup; by exists 2|].
  split; [|done].
  intros id v Hin. cbn [trace] in Hin.
  repeat (apply elem_of_cons in Hin as [Hin|Hin]; [done|]).
  by apply elem_of_nil in Hin.
Qed.

(** C10, amended.  When the request gets as far as the call (program and
    function found, both counts right, every input device resolved) and
    the device of the output at position [i] is the first that does not
    resolve, the results of the outputs at the positions before [i] have
    been set in the store, in order, before the failure response is
    delivered; they stay there. *)
Theorem outputs_published_before_failure (env : Env)
    (request : RemoteExecuteInvocation) (w : World (AsyncValue env))
    (fns : list Function) (fn : Function) (i : nat) (o : Output) :
  cache_wf (function_cache_ w) →
  cached_program (function_cache_ w) (program_name request) = Some fns →
  GetFunction fns (program_name request) = Some fn →
  length (result_types fn) = length (outputs request) →
  length (argument_types fn) =
    (if takes_context fn then 1 else 0) + length (inputs request) →
  Forall (λ id, is_Some (GetDeviceRef env (device id))) (inputs request) →
  outputs request !! i = Some o →
  GetDeviceRef env (device (output_id o)) = None →
  (∀ j o', j < i → outputs request !! j = Some o' →
           is_Some (GetDeviceRef env (device (output_id o')))) →
  let args :=
    context_arguments env fn ++
    map (λ id, resolve env id ≫= GetRemoteObject env (remote_objects w))
        (inputs request) in
  ∃ w' pubs,
    serve env request w = Finished w' ∧
    trace w' =
      trace w ++
      Executed fn args :: published_events env pubs ++
      [Log (CantFindDevice (device (output_id o)));
       Done (mkResult false [])] ∧
    remote_objects w' = publish_all env pubs (remote_objects w) ∧
    length pubs = i ∧
    ∀ j o', j < i → outputs request !! j = Some o' →
      ∃ id, resolve env (output_id o') = Some id ∧
            pubs !! j = Some (id, Execute env fn args j).
Proof.
  intros Hwf Hfns Hfn Hres Hargs Hins Ho Hdev Hbefore args.
  assert (length (resolved_prefix env (outputs request)) = i) as Hprefix.
  { apply resolved_prefix_first; [done| |].
    - apply lookup_lt_Some in Ho. lia.
    - intros o' Ho'. congruence. }
  pose proof (lookup_lt_Some _ _ _ Ho) as Hi.
  pose proof (resolve_inputs_inr env (inputs request) (remote_objects w)
                (context_arguments env fn) Hins) as Hin.
  subst args.
  destruct (serve_outcome env request w Hwf) as (m & es & Hs & Hout).
  destruct Hout; simplify_eq; try lia; try congruence.
  match goal with
  | H : resolve_inputs _ _ _ _ = inr _ |- _ =>
      rewrite Hin in H; injection H as <-
  end.
  set (args := context_arguments env fn ++ _).
  eexists _, _. split; [done|]. cbn [trace remote_objects].
  split; [done|]. split; [done|].
  assert (length (zip (resolved_prefix env (outputs request))
                      (results_of env fn args)) =
          length (resolved_prefix env (outputs request))) as Hlen.
  { rewrite length_zip_with, results_of_length. lia. }
  split; [done|].
  intros j o' Hj Ho'.
  destruct (lookup_lt_is_Some_2 (resolved_prefix env (outputs request)) j)
    as [id Hid]; [lia|].
  destruct (resolved_prefix_lookup env _ _ _ Hid) as (o'' & Ho'' & Hres').
  assert (o'' = o') as -> by congruence.
  exists id. split; [done|].
  rewrite lookup_zip_with, Hid. cbn.
  rewrite results_of_lookup by lia. done.
Qed.

Lemma outputs_published_before_failure_witness :
  let request :=
    mkRemoteExecuteInvocation "p" "p" [Sample.on_cpu 1]
      [mkOutput (Sample.on_cpu 2) true; mkOutput (Sample.on_gpu 3) false] in
  let w := Sample.registered "B" in
  let fn := mkFunction "p" [Sample.context_t; Sample.tensor_t]
                       [Sample.tensor_t; "i32"] in
  let o := mkOutput (Sample.on_gpu 3) false in
  let args :=
    context_arguments Sample.env fn ++
    map (λ id, resolve Sample.env id ≫=
               GetRemoteObject Sample.env (remote_objects w))
        (inputs request) in
  ∃ w' pubs,
    serve Sample.env request w = Finished w' ∧
    trace w' =
      trace w ++
      Executed fn args :: published_events Sample.env pubs ++
      [Log (CantFindDevice (device (output_id o)));
       Done (mkResult false [])] ∧
    remote_objects w' = publish_all Sample.env pubs (remote_objects w) ∧
    length pubs = 1 ∧
    ∀ j o', j < 1 → outputs request !! j = Some o' →
      ∃ id, resolve Sample.env (output_id o') = Some id ∧
            pubs !! j = Some (id, Execute Sample.env fn args j).
Proof.
  intros request w fn o.
  apply (outputs_published_before_failure Sample.env request w
           Sample.program_B fn 1 o).
  - apply registered_wf.
  - by vm_compute.
  - by vm_compute.
  - reflexivity.
  - reflexivity.
  - repeat constructor. by eexists; vm_compute.
  - reflexivity.
  - by vm_compute.
  - intros j o' Hj Ho'. assert (j = 0) as -> by lia.
    injection Ho' as <-. by eexists; vm_compute.
Defined.

(** * Further properties *)

(** ** The cache *)

Section CacheFurther.

Variable open : BEFBuffer → option (list Function).

(** The file a registration displaces is destroyed when the entry was its
    only holder. *)
Lemma Register_displaced_file (c : FunctionCache) (name : string)
    (bytes : BEFBuffer) (fns : list Function) (old : CachedBEF) (f : BEFFile) :
  cache_wf c → open bytes = Some fns →
  cached_bef_ c !! name = Some old →
  bef_files c !! bef_file old = Some f → file_refs f = 1 →
  bef_files (Register open name bytes c).1 !! bef_file old = None.
Proof.
  intros Hwf Hopen Hold Hf Hone.
  pose proof (fresh_file_free c) as Hfa.
  assert (fresh (dom (bef_files c)) ≠ bef_file old) as Hne by congruence.
  unfold Register. rewrite Hopen. cbv zeta. unfold RC.CopyRef.
  cbn [cached_bef_ bef_files bef_buffers fst].
  rewrite files_DropRef_ne by done. cbn [cached_bef_ bef_files bef_buffers].
  repeat progress
    (rewrite ?cached_DropRef, ?Hold;
     cbn [cached_bef_ bef_files bef_buffers]).
  erewrite files_DropRef_eq.
  2:{ cbn [bef_files]. by rewrite lookup_alter_ne, lookup_insert_ne. }
  by rewrite Hone.
Qed.

Lemma Register_tight (c : FunctionCache) (name : string) (bytes : BEFBuffer) :
  cache_wf c → cache_tight c → cache_tight (Register open name bytes c).1.
Proof.
  intros Hwf Htight. destruct (open bytes) as [fns|] eqn:Hopen.
  2:{ by rewrite Register_parse_failure. }
  destruct (Register_success open name bytes fns c Hwf Hopen)
    as (_ & Hc & Hf & Hb & Hfiles & Hbufs).
  destruct Htight as [Hfile_owned Hbuf_owned]. split.
  - intros a f Ha.
    destruct (decide (a = fresh (dom (bef_files c)))) as [->|Hne].
    { rewrite Hf in Ha. injection Ha as <-. split; [done|].
      eexists name, _. rewrite Hc, lookup_insert_eq. done. }
    destruct (cached_bef_ c !! name) as [old|] eqn:Hold.
    + destruct (decide (a = bef_file old)) as [->|Hne'].
      * destruct (proj1 Hwf _ _ Hold) as (f' & Hf' & _).
        destruct (Hfile_owned _ _ Hf') as [Hone _].
        by rewrite (Register_displaced_file c name bytes fns old f') in Ha.
      * rewrite Hfiles in Ha by (try done; by intros ? [= <-]).
        destruct (Hfile_owned _ _ Ha) as (Hone & name' & e' & He' & Hae').
        split; [done|]. exists name', e'. split; [|done].
        rewrite Hc, lookup_insert_ne; [done|].
        intros <-. congruence.
    + rewrite Hfiles in Ha by done.
      destruct (Hfile_owned _ _ Ha) as (Hone & name' & e' & He' & Hae').
      split; [done|]. exists name', e'. split; [|done].
      rewrite Hc, lookup_insert_ne; [done|]. intros <-. congruence.
  - intros a b Ha.
    destruct (decide (a = fresh (dom (bef_buffers c)))) as [->|Hne].
    { eexists name, _. rewrite Hc, lookup_insert_eq. done. }
    destruct (cached_bef_ c !! name) as [old|] eqn:Hold.
    + destruct (decide (a = bef_buffer old)) as [->|Hne'].
      * rewrite (Register_displaced open c name bytes fns old) in Ha; done.
      * rewrite Hbufs in Ha by (try done; by intros ? [= <-]).
        destruct (Hbuf_owned _ _ Ha) as (name' & e' & He' & Hae').
        exists name', e'. split; [|done].
        rewrite Hc, lookup_insert_ne; [done|]. intros <-. congruence.
    + rewrite Hbufs in Ha by done.
      destruct (Hbuf_owned _ _ Ha) as (name' & e' & He' & Hae').
      exists name', e'. split; [|done].
      rewrite Hc, lookup_insert_ne; [done|]. intros <-. congruence.
Qed.

Lemma cache_tight_empty : cache_tight empty_cache.
Proof.
  split; intros a x H; cbn in H; by rewrite lookup_empty in H.
Qed.

(** What [Prepare] returns after a successful registration of the name. *)
Lemma Register_then_Prepare (c : FunctionCache) (name : string)
    (bytes : BEFBuffer) (fns : list Function) :
  cache_wf c → open bytes = Some fns →
  ∃ r c', Prepare name (Register open name bytes c).1 = (Some r, c') ∧
          RC.get c' r = Some fns.
Proof.
  intros Hwf Hopen.
  destruct (Register_success open name bytes fns c Hwf Hopen)
    as (_ & Hc & Hf & Hb & _).
  unfold Prepare. rewrite Hc, lookup_insert_eq. cbn.
  eexists _, _. split; [done|].
  unfold RC.get, RC.CopyRef. cbn. rewrite lookup_alter_eq, Hf. cbn.
  by rewrite Hb.
Qed.

(** What [Prepare] returns for another name is not touched. *)
Lemma Register_keeps_Prepare (c : FunctionCache) (name name' : string)
    (bytes : BEFBuffer) :
  cache_wf c → name ≠ name' →
  (Prepare name' (Register open name bytes c).1).1 = (Prepare name' c).1 ∧
  ∀ r, (Prepare name' c).1 = Some r →
       RC.get (Prepare name' (Register open name bytes c).1).2 r =
       RC.get (Prepare name' c).2 r.
Proof.
  intros Hwf Hne. destruct (open bytes) as [fns|] eqn:Hopen.
  2:{ by rewrite Register_parse_failure. }
  destruct (Register_success open name bytes fns c Hwf Hopen)
    as (_ & Hc & _ & _ & Hfiles & Hbufs).
  pose proof (fresh_buffer_free c) as Hba.
  pose proof (fresh_file_free c) as Hfa.
  destruct Hwf as [Hlive Hinj].
  unfold Prepare. rewrite Hc, lookup_insert_ne by done.
  destruct (cached_bef_ c !! name') as [e|] eqn:He; [|done].
  split; [done|]. cbn. intros r [= <-].
  destruct (Hlive _ _ He) as (f & Hf & _ & Hdata & [b Hb]).
  unfold RC.get, RC.CopyRef. cbn. rewrite !lookup_alter_eq.
  rewrite Hfiles, Hf.
  - cbn. rewrite Hbufs; [done|congruence|].
    intros old Hold Heq. apply Hne.
    eapply Hinj; [exact Hold|exact He|right; congruence].
  - congruence.
  - intros old Hold Heq. apply Hne.
    eapply Hinj; [exact Hold|exact He|left; congruence].
Qed.

End CacheFurther.

(** ** Histories *)

Section Histories.

Variable env : Env.

Lemma HandleRemoteRegister_tight (request : RemoteRegisterInvocation)
    (w : World (AsyncValue env)) :
  cache_wf (function_cache_ w) → cache_tight (function_cache_ w) →
  cache_tight (function_cache_ (HandleRemoteRegister env request w)).
Proof.
  intros Hwf Htight. unfold HandleRemoteRegister.
  destruct (ConvertMLIRSrcToBEF env (program request)) as [|b bytes]; [done|].
  pose proof (Register_tight (BEFFile_Open env) (function_cache_ w)
                (register_program_name request) (b :: bytes) Hwf Htight)
    as Htight'.
  by destruct (Register (BEFFile_Open env) (register_program_name request)
                 (b :: bytes) (function_cache_ w)).
Qed.

(** A registration that does not install a program under [name] leaves
    the name as it was in the map. *)
Lemma HandleRemoteRegister_other (name : string)
    (request : RemoteRegisterInvocation) (w : World (AsyncValue env)) :
  ¬ installs env name (RegisterInvocation request) →
  cached_bef_ (function_cache_ (HandleRemoteRegister env request w)) !! name =
  cached_bef_ (function_cache_ w) !! name.
Proof.
  intros Hnot. unfold HandleRemoteRegister. cbn in Hnot.
  destruct (ConvertMLIRSrcToBEF env (program request)) as [|b bytes] eqn:Hconv;
    [done|].
  destruct (decide (register_program_name request = name)) as [Heq|Hne].
  - destruct (BEFFile_Open env (b :: bytes)) as [fns|] eqn:Hopen.
    + exfalso. apply Hnot. split; [done|]. split; [done|]. by eexists.
    + by rewrite (Register_parse_failure _ _ _ _ Hopen).
  - pose proof (Register_other (BEFFile_Open env)
                  (register_program_name request) name (b :: bytes)
                  (function_cache_ w) Hne) as Hother.
    by destruct (Register (BEFFile_Open env) (register_program_name request)
                   (b :: bytes) (function_cache_ w)).
Qed.

(** Every request finishes and keeps the invariants of the cache. *)
Lemma handle_invariant (w : World (AsyncValue env)) (inv : Invocation) :
  cache_wf (function_cache_ w) → cache_tight (function_cache_ w) →
  ∃ w', handle env w inv = Finished w' ∧
        cache_wf (function_cache_ w') ∧ cache_tight (function_cache_ w') ∧
        ∀ name, ¬ installs env name inv →
                cached_bef_ (function_cache_ w') !! name =
                cached_bef_ (function_cache_ w) !! name.
Proof.
  intros Hwf Htight. destruct inv as [request|request]; cbn [handle].
  - eexists. split; [done|]. split; [by apply HandleRemoteRegister_wf|].
    split; [by apply HandleRemoteRegister_tight|].
    intros name Hnot. by apply HandleRemoteRegister_other.
  - destruct (serve_keeps_cache env request w Hwf) as (w' & Hs & Hc & Hwf').
    exists w'. rewrite Hc. done.
Qed.

Lemma handle_all_invariant (invs : list Invocation)
    (w : World (AsyncValue env)) :
  cache_wf (function_cache_ w) → cache_tight (function_cache_ w) →
  ∃ w', handle_all env invs w = Finished w' ∧
        cache_wf (function_cache_ w') ∧ cache_tight (function_cache_ w') ∧
        ∀ name, Forall (λ inv, ¬ installs env name inv) invs →
                cached_bef_ (function_cache_ w') !! name =
                cached_bef_ (function_cache_ w) !! name.
Proof.
  revert w. induction invs as [|inv invs IH]; intros w Hwf Htight; cbn.
  - by exists w.
  - destruct (handle_invariant w inv Hwf Htight)
      as (w1 & -> & Hwf1 & Htight1 & Hkeep1).
    destruct (IH w1 Hwf1 Htight1) as (w' & Hrun & Hwf' & Htight' & Hkeep).
    exists w'. split; [done|]. split; [done|]. split; [done|].
    intros name Hall. apply Forall_cons in Hall as [Hinv Hall].
    rewrite Hkeep by done. by apply Hkeep1.
Qed.

(** A request for a name the map does not hold. *)
Lemma serve_absent (request : RemoteExecuteInvocation)
    (w : World (AsyncValue env)) :
  cache_wf (function_cache_ w) →
  cached_bef_ (function_cache_ w) !! program_name request = None →
  serve env request w =
    Finished (emit [Log (CantFindProgram (program_name request));
                    Done (mkResult false [])] w).
Proof.
  intros Hwf Hnone.
  assert (cached_program (function_cache_ w) (program_name request) = None)
    as Hprog by (unfold cached_program; by rewrite Hnone).
  destruct (serve_outcome env request w Hwf) as (m & es & Hs & Hout).
  rewrite Hs. destruct Hout; [done|congruence..].
Qed.

End Histories.

(** ** Requests that succeed *)

Section Success.

Variable env : Env.

Lemma publications_app {V} (es1 es2 : list (Event V)) :
  publications (es1 ++ es2) = publications es1 ++ publications es2.
Proof.
  induction es1 as [|e es1 IH]; cbn; [done|]. destruct e; cbn; by rewrite ?IH.
Qed.

Lemma publications_published (pubs : list (RemoteObjectId * AsyncValue env)) :
  publications (published_events env pubs) = pubs.
Proof.
  unfold published_events.
  induction pubs as [|[id v] pubs IH]; cbn; [done|]. by rewrite IH.
Qed.

Lemma count_executed_app {V} (es1 es2 : list (Event V)) :
  count_executed (es1 ++ es2) = count_executed es1 + count_executed es2.
Proof.
  induction es1 as [|e es1 IH]; cbn; [done|]. destruct e; cbn; lia.
Qed.

Lemma count_executed_published
    (pubs : list (RemoteObjectId * AsyncValue env)) :
  count_executed (published_events env pubs) = 0.
Proof. induction pubs as [|p pubs IH]; cbn; done. Qed.

(** The prefix is everything exactly when every device resolves. *)
Lemma resolved_prefix_all (outs : list Output) :
  length (resolved_prefix env outs) = length outs ↔
  Forall (λ o, is_Some (GetDeviceRef env (device (output_id o)))) outs.
Proof.
  induction outs as [|o outs IH]; cbn.
  - split; [by constructor|done].
  - unfold resolve.
    destruct (GetDeviceRef env (device (output_id o))) as [d|] eqn:Hd; cbn.
    + rewrite Forall_cons, <- IH. split.
      * intros [= ?]. split; [by eexists|done].
      * intros [_ ->]. done.
    + split; [done|]. intros [[d Hd'] _]%Forall_cons. congruence.
Qed.

Lemma resolved_prefix_Forall2 (outs : list Output) :
  length (resolved_prefix env outs) = length outs →
  Forall2 (λ o id, resolve env (output_id o) = Some id)
          outs (resolved_prefix env outs).
Proof.
  induction outs as [|o outs IH]; cbn; [by constructor|].
  destruct (resolve env (output_id o)) as [id|] eqn:Hid; cbn; [|done].
  intros [= Hlen]. constructor; [done|by apply IH].
Qed.

(** A request the function accepts is served to the end: one call, one
    publication per output, one successful response. *)
Lemma serve_accepted (request : RemoteExecuteInvocation)
    (w : World (AsyncValue env)) (fns : list Function) (fn : Function) :
  cache_wf (function_cache_ w) →
  cached_program (function_cache_ w) (program_name request) = Some fns →
  GetFunction fns (program_name request) = Some fn →
  accepts env fn request →
  let args := call_arguments env fn request (remote_objects w) in
  let pubs := zip (resolved_prefix env (outputs request))
                  (results_of env fn args) in
  serve env request w =
    Finished
      (mkWorld (function_cache_ w) (publish_all env pubs (remote_objects w))
         (trace w ++
          Executed fn args :: published_events env pubs ++
          [Done (mkResult true
                   (requested_metadata env (outputs request)
                                       (results_of env fn args)))])).
Proof.
  intros Hwf Hfns Hfn (Hres & Hargs & Hins & Houts & Htypes) args pubs.
  subst args pubs. unfold call_arguments.
  pose proof (resolve_inputs_inr env (inputs request) (remote_objects w)
                (context_arguments env fn) Hins) as Hin.
  apply resolved_prefix_all in Houts.
  destruct (serve_outcome env request w Hwf) as (m & es & Hs & Hout).
  rewrite Hs.
  destruct Hout; simplify_eq; try lia; try congruence.
  - match goal with
    | H : outputs request !! _ = Some _ |- _ => apply lookup_lt_Some in H
    end.
    lia.
  - exfalso. match goal with H : _ ≠ "!t.tensor" |- _ => apply H end.
    eapply Htypes; eauto.
Qed.

(** A successful response only comes from a request the function
    accepts. *)
Lemma success_accepted (request : RemoteExecuteInvocation)
    (c : FunctionCache) (m0 m : gmap RemoteObjectId (AsyncValue env))
    (es : list (Event (AsyncValue env))) (r : RemoteExecuteInvocationResult) :
  outcome env request c m0 m es → Done r ∈ es → ok r = true →
  ∃ fns fn,
    cached_program c (program_name request) = Some fns ∧
    GetFunction fns (program_name request) = Some fn ∧
    accepts env fn request.
Proof.
  intros Hout Hr Hok.
  destruct Hout; try apply Done_after_call in Hr;
    repeat (apply elem_of_cons in Hr as [Hr|Hr]; [try done; injection Hr as ->|]);
    try (by apply elem_of_nil in Hr); try done.
  exists fns, fn. split; [done|]. split; [done|].
  match goal with
  | H : resolve_inputs _ _ _ _ = inr _ |- _ =>
      apply resolve_inputs_inr_inv in H as [Hall _]
  end.
  repeat split; try done. by apply resolved_prefix_all.
Qed.

End Success.

(** ** The handler from its construction on *)

(** X1.  From its construction on, whatever requests the handler is given,
    it serves each of them to the end without an access C++ leaves
    undefined: no index out of range, no use of a file whose bytes are
    gone; and its cache stays well formed. *)
Theorem requests_never_undefined (env : Env) (invs : list Invocation)
    (m0 : gmap RemoteObjectId (AsyncValue env)) :
  ∃ w, handle_all env invs (RequestHandler_new m0) = Finished w ∧
       cache_wf (function_cache_ w).
Proof.
  destruct (handle_all_invariant env invs (RequestHandler_new m0))
    as (w & Hrun & Hwf & _); [apply cache_wf_empty|apply cache_tight_empty|].
  by exists w.
Qed.

(** X2.  The handler leaks nothing: after any requests, every live
    [BEFFile] has exactly one holder, the cache entry it belongs to, and
    every live buffer belongs to an entry.  A replaced program and its
    bytes are freed, and every reference the execution path takes is
    released. *)
Theorem cache_never_leaks (env : Env) (invs : list Invocation)
    (m0 : gmap RemoteObjectId (AsyncValue env)) :
  ∃ w, handle_all env invs (RequestHandler_new m0) = Finished w ∧
       cache_tight (function_cache_ w).
Proof.
  destruct (handle_all_invariant env invs (RequestHandler_new m0))
    as (w & Hrun & _ & Htight & _);
    [apply cache_wf_empty|apply cache_tight_empty|].
  by exists w.
Qed.

(** X3.  As long as no registration has installed a program under a name
    (none was sent, or the compiler or the parser failed each time), a
    request to execute that name is answered with the failure response,
    right away, and nothing else happens. *)
Theorem unregistered_program_not_found (env : Env) (invs : list Invocation)
    (m0 : gmap RemoteObjectId (AsyncValue env)) (name : string) :
  Forall (λ inv, ¬ installs env name inv) invs →
  ∃ w, handle_all env invs (RequestHandler_new m0) = Finished w ∧
       ∀ request, program_name request = name →
         serve env request w =
           Finished (emit [Log (CantFindProgram name);
                           Done (mkResult false [])] w).
Proof.
  intros Hnever.
  destruct (handle_all_invariant env invs (RequestHandler_new m0))
    as (w & Hrun & Hwf & _ & Hkeep);
    [apply cache_wf_empty|apply cache_tight_empty|].
  exists w. split; [done|]. intros request <-.
  apply serve_absent; [done|]. rewrite Hkeep by done. apply lookup_empty.
Qed.

Lemma unregistered_program_not_found_witness :
  let invs :=
    [RegisterInvocation (mkRemoteRegisterInvocation "p" "Z");
     RegisterInvocation (mkRemoteRegisterInvocation "q" "A")] in
  ∃ w, handle_all Sample.env invs (RequestHandler_new ∅) = Finished w ∧
       ∀ request, program_name request = "p" →
         serve Sample.env request w =
           Finished (emit [Log (CantFindProgram "p");
                           Done (mkResult false [])] w).
Proof.
  intros invs.
  apply (unregistered_program_not_found Sample.env invs ∅ "p").
  repeat constructor.
  - intros (_ & _ & [fns Hfns]). vm_compute in Hfns. discriminate.
  - intros (Hname & _). vm_compute in Hname. discriminate.
Defined.

(** X4.  A registration whose source compiles and parses is silent: no
    diagnostic, no change of the object store; and from then on [Prepare]
    of the name returns a reference to the parsed program. *)
Theorem registration_installs_program (env : Env)
    (request : RemoteRegisterInvocation) (w : World (AsyncValue env))
    (fns : list Function) :
  cache_wf (function_cache_ w) →
  ConvertMLIRSrcToBEF env (program request) ≠ [] →
  BEFFile_Open env (ConvertMLIRSrcToBEF env (program request)) = Some fns →
  let w' := HandleRemoteRegister env request w in
  trace w' = trace w ∧ remote_objects w' = remote_objects w ∧
  ∃ r c', Prepare (register_program_name request) (function_cache_ w')
            = (Some r, c') ∧
          RC.get c' r = Some fns.
Proof.
  intros Hwf Hconv Hopen w'. subst w'. unfold HandleRemoteRegister.
  destruct (ConvertMLIRSrcToBEF env (program request)) as [|b bytes]; [done|].
  destruct (Register_success (BEFFile_Open env)
              (register_program_name request) (b :: bytes) fns _ Hwf Hopen)
    as (Hlog & _).
  pose proof (Register_then_Prepare (BEFFile_Open env) (function_cache_ w)
                (register_program_name request) (b :: bytes) fns Hwf Hopen)
    as Hprep.
  destruct (Register (BEFFile_Open env) (register_program_name request)
              (b :: bytes) (function_cache_ w)) as [c diags].
  cbn in *. subst diags. cbn. by rewrite app_nil_r.
Qed.

Lemma registration_installs_program_witness :
  let request := mkRemoteRegisterInvocation "q" "B" in
  let w := Sample.registered "A" in
  let w' := HandleRemoteRegister Sample.env request w in
  trace w' = trace w ∧ remote_objects w' = remote_objects w ∧
  ∃ r c', Prepare "q" (function_cache_ w') = (Some r, c') ∧
          RC.get c' r = Some Sample.program_B.
Proof.
  intros request w.
  apply (registration_installs_program Sample.env request w Sample.program_B).
  - apply registered_wf.
  - by vm_compute.
  - reflexivity.
Defined.

(** X5.  A registration under one name changes nothing for any other
    name: [Prepare] of the other name returns the same reference, to the
    same program. *)
Theorem registration_keeps_other_programs
    (open : BEFBuffer → option (list Function)) (c : FunctionCache)
    (name name' : string) (bytes : BEFBuffer) :
  cache_wf c → name ≠ name' →
  (Prepare name' (Register open name bytes c).1).1 = (Prepare name' c).1 ∧
  ∀ r, (Prepare name' c).1 = Some r →
       RC.get (Prepare name' (Register open name bytes c).1).2 r =
       RC.get (Prepare name' c).2 r.
Proof. apply Register_keeps_Prepare. Qed.

Lemma registration_keeps_other_programs_witness :
  let c := (Register Sample.open "p" ["A"%byte] empty_cache).1 in
  (Prepare "p" (Register Sample.open "q" ["B"%byte] c).1).1 =
    (Prepare "p" c).1 ∧
  ∀ r, (Prepare "p" c).1 = Some r →
       RC.get (Prepare "p" (Register Sample.open "q" ["B"%byte] c).1).2 r =
       RC.get (Prepare "p" c).2 r.
Proof.
  intros c.
  apply (registration_keeps_other_programs Sample.open c "q" "p" ["B"%byte]).
  - apply Register_wf, cache_wf_empty.
  - discriminate.
Defined.

(** X6.  Two programs registered under different names are both there
    afterwards, each under its own name. *)
Theorem two_registrations_both_prepared
    (open : BEFBuffer → option (list Function)) (c : FunctionCache)
    (n1 n2 : string) (b1 b2 : BEFBuffer) (f1 f2 : list Function) :
  cache_wf c → n1 ≠ n2 → open b1 = Some f1 → open b2 = Some f2 →
  let c' := (Register open n2 b2 (Register open n1 b1 c).1).1 in
  (∃ r, (Prepare n1 c').1 = Some r ∧ RC.get (Prepare n1 c').2 r = Some f1) ∧
  (∃ r, (Prepare n2 c').1 = Some r ∧ RC.get (Prepare n2 c').2 r = Some f2).
Proof.
  intros Hwf Hne H1 H2 c'. subst c'.
  pose proof (Register_wf open n1 b1 c Hwf) as Hwf1.
  split.
  - destruct (Register_then_Prepare open c n1 b1 f1 Hwf H1)
      as (r & c1 & Hprep & Hget).
    destruct (Register_keeps_Prepare open (Register open n1 b1 c).1 n2 n1 b2
                Hwf1) as [Hsame Hget']; [done|].
    rewrite Hprep in Hsame, Hget'. cbn in Hsame, Hget'.
    exists r. split; [done|]. rewrite (Hget' r eq_refl). done.
  - destruct (Register_then_Prepare open (Register open n1 b1 c).1 n2 b2 f2
                Hwf1 H2) as (r & c2 & Hprep & Hget).
    exists r. by rewrite Hprep.
Qed.

Lemma two_registrations_both_prepared_witness :
  let c' := (Register Sample.open "q" ["B"%byte]
               (Register Sample.open "p" ["A"%byte] empty_cache).1).1 in
  (∃ r, (Prepare "p" c').1 = Some r ∧
        RC.get (Prepare "p" c').2 r = Some Sample.program_A) ∧
  (∃ r, (Prepare "q" c').1 = Some r ∧
        RC.get (Prepare "q" c').2 r = Some Sample.program_B).
Proof.
  apply (two_registrations_both_prepared Sample.open empty_cache "p" "q"
           ["A"%byte] ["B"%byte] Sample.program_A Sample.program_B).
  - apply cache_wf_empty.
  - discriminate.
  - reflexivity.
  - reflexivity.
Defined.

(** X7.  [Prepare] only takes a reference: it changes neither the map nor
    the buffers, and releasing the reference gives back the cache exactly
    as it was. *)
Theorem Prepare_release_restores (c c' : FunctionCache) (name : string)
    (r : addr) :
  cache_wf c → Prepare name c = (Some r, c') →
  RC.DropRef r c' = c ∧
  cached_bef_ c' = cached_bef_ c ∧ bef_buffers c' = bef_buffers c.
Proof.
  intros [Hlive _]. unfold Prepare.
  destruct (cached_bef_ c !! name) as [e|] eqn:He; [|done].
  intros [= <- <-].
  destruct (Hlive _ _ He) as (f & Hf & Hrefs & _).
  split; [by eapply DropRef_CopyRef|done].
Qed.

Lemma Prepare_release_restores_witness :
  let c := (Register Sample.open "p" ["A"%byte] empty_cache).1 in
  RC.DropRef 1%positive (Prepare "p" c).2 = c ∧
  cached_bef_ (Prepare "p" c).2 = cached_bef_ c ∧
  bef_buffers (Prepare "p" c).2 = bef_buffers c.
Proof.
  intros c.
  apply (Prepare_release_restores c (Prepare "p" c).2 "p" 1%positive).
  - apply Register_wf, cache_wf_empty.
  - by vm_compute.
Defined.

(** ** One request *)

Section OneRequest.

Variable env : Env.

Lemma resolve_inputs_first_failure (pre post : list WireObjectId)
    (id : WireObjectId) (m : gmap RemoteObjectId (AsyncValue env))
    (args : list (option (AsyncValue env))) :
  Forall (λ id, is_Some (GetDeviceRef env (device id))) pre →
  GetDeviceRef env (device id) = None →
  resolve_inputs env (pre ++ id :: post) m args = inl (device id).
Proof.
  intros Hpre Hid. revert args.
  induction Hpre as [|id' pre [d Hd] _ IH]; intros args; cbn.
  - by rewrite Hid.
  - rewrite Hd. apply IH.
Qed.

Lemma context_arguments_length (fn : Function) :
  length (context_arguments env fn) = if takes_context fn then 1 else 0.
Proof. unfold context_arguments. by destruct (takes_context fn). Qed.

Lemma Register_cached_program (c : FunctionCache) (name : string)
    (bytes : BEFBuffer) (fns : list Function) :
  cache_wf c → BEFFile_Open env bytes = Some fns →
  cached_program (Register (BEFFile_Open env) name bytes c).1 name = Some fns.
Proof.
  intros Hwf Hopen.
  destruct (Register_success (BEFFile_Open env) name bytes fns c Hwf Hopen)
    as (_ & Hc & Hf & _).
  unfold cached_program. rewrite Hc, lookup_insert_eq. cbn. by rewrite Hf.
Qed.

End OneRequest.

(** X8.  An execute request leaves the cache exactly as it found it,
    reference counts included: the reference it takes from [Prepare] is
    released on every return path. *)
Theorem execute_keeps_cache (env : Env) (request : RemoteExecuteInvocation)
    (w : World (AsyncValue env)) :
  cache_wf (function_cache_ w) →
  ∃ w', serve env request w = Finished w' ∧
        function_cache_ w' = function_cache_ w.
Proof.
  intros Hwf. destruct (serve_outcome env request w Hwf) as (m & es & Hs & _).
  eexists. split; [exact Hs|done].
Qed.

Lemma execute_keeps_cache_witness :
  let request :=
    mkRemoteExecuteInvocation "p" "p" [Sample.on_cpu 1]
      [mkOutput (Sample.on_cpu 2) true; mkOutput (Sample.on_gpu 3) false] in
  ∃ w', serve Sample.env request (Sample.registered "B") = Finished w' ∧
        function_cache_ w' = function_cache_ (Sample.registered "B").
Proof.
  intros request.
  apply (execute_keeps_cache Sample.env request (Sample.registered "B")).
  apply registered_wf.
Defined.

(** X9.  The completion callback is never invoked twice for a request,
    and when it is invoked it is the last thing the request does: nothing
    is logged, published or called after it. *)
Theorem done_at_most_once_and_last (env : Env)
    (request : RemoteExecuteInvocation) (w : World (AsyncValue env)) :
  cache_wf (function_cache_ w) →
  ∃ m es,
    serve env request w =
      Finished (mkWorld (function_cache_ w) m (trace w ++ es)) ∧
    count_done es ≤ 1 ∧
    ∀ r, Done r ∈ es → last es = Some (Done r).
Proof.
  intros Hwf. destruct (serve_outcome env request w Hwf) as (m & es & Hs & Hout).
  exists m, es. split; [done|]. split.
  - destruct Hout; cbn;
      rewrite ?count_done_app, ?count_done_published; cbn; lia.
  - intros r Hr.
    destruct Hout; try apply Done_after_call in Hr;
      repeat (apply elem_of_cons in Hr as [Hr|Hr];
              [try done; injection Hr as ->|]);
      try (by apply elem_of_nil in Hr); try done;
      rewrite app_comm_cons; by rewrite ?last_app.
Qed.

Lemma done_at_most_once_and_last_witness :
  let request :=
    mkRemoteExecuteInvocation "p" "p" [Sample.on_cpu 1]
      [mkOutput (Sample.on_cpu 2) true; mkOutput (Sample.on_cpu 3) true] in
  let w := Sample.registered "B" in
  ∃ m es,
    serve Sample.env request w =
      Finished (mkWorld (function_cache_ w) m (trace w ++ es)) ∧
    count_done es ≤ 1 ∧
    ∀ r, Done r ∈ es → last es = Some (Done r).
Proof.
  intros request w.
  apply (done_at_most_once_and_last Sample.env request w).
  apply registered_wf.
Defined.

(** X10.  A request changes the object store only through the
    [SetRemoteObject] calls of its publications, in their order, and it
    publishes nothing before it has called the function. *)
Theorem store_changed_only_by_publications (env : Env)
    (request : RemoteExecuteInvocation) (w : World (AsyncValue env)) :
  cache_wf (function_cache_ w) →
  ∃ m es,
    serve env request w =
      Finished (mkWorld (function_cache_ w) m (trace w ++ es)) ∧
    m = publish_all env (publications es) (remote_objects w) ∧
    (publications es ≠ [] → ∃ fn args, head es = Some (Executed fn args)).
Proof.
  intros Hwf. destruct (serve_outcome env request w Hwf) as (m & es & Hs & Hout).
  exists m, es. split; [done|].
  destruct Hout; cbn [publications head];
    rewrite ?publications_app, ?publications_published; cbn [publications];
    rewrite ?app_nil_r; (split; [done|]); try done; eauto.
Qed.

Lemma store_changed_only_by_publications_witness :
  let request :=
    mkRemoteExecuteInvocation "p" "p" [Sample.on_cpu 1]
      [mkOutput (Sample.on_cpu 2) true; mkOutput (Sample.on_gpu 3) false] in
  let w := Sample.registered "B" in
  ∃ m es,
    serve Sample.env request w =
      Finished (mkWorld (function_cache_ w) m (trace w ++ es)) ∧
    m = publish_all Sample.env (publications es) (remote_objects w) ∧
    (publications es ≠ [] → ∃ fn args, head es = Some (Executed fn args)).
Proof.
  intros request w.
  apply (store_changed_only_by_publications Sample.env request w).
  apply registered_wf.
Defined.

(** X11.  For a request whose function resolves, the response reports
    success exactly when the request passes every check: the result and
    argument counts fit, every input and output device resolves, and every
    output that asks for metadata is declared a tensor.  Results of other
    types are fine as long as no metadata is asked for them. *)
Theorem success_iff_accepted (env : Env) (request : RemoteExecuteInvocation)
    (w : World (AsyncValue env)) (fns : list Function) (fn : Function) :
  cache_wf (function_cache_ w) →
  cached_program (function_cache_ w) (program_name request) = Some fns →
  GetFunction fns (program_name request) = Some fn →
  ∃ m es,
    serve env request w =
      Finished (mkWorld (function_cache_ w) m (trace w ++ es)) ∧
    ((∃ r, Done r ∈ es ∧ ok r = true) ↔ accepts env fn request).
Proof.
  intros Hwf Hfns Hfn.
  destruct (serve_outcome env request w Hwf) as (m & es & Hs & Hout).
  exists m, es. split; [done|]. split.
  - intros (r & Hr & Hok).
    destruct (success_accepted env request _ _ _ _ r Hout Hr Hok)
      as (fns' & fn' & Hfns' & Hfn' & Hacc).
    congruence.
  - intros Hacc.
    pose proof (serve_accepted env request w fns fn Hwf Hfns Hfn Hacc) as Hs'.
    cbv zeta in Hs'. rewrite Hs in Hs'. injection Hs' as _ Hes.
    apply app_inv_head in Hes. subst es.
    eexists. split.
    { apply elem_of_cons. right. apply elem_of_app. right.
      apply elem_of_cons. by left. }
    done.
Qed.

Lemma success_iff_accepted_witness :
  let request :=
    mkRemoteExecuteInvocation "p" "p" [Sample.on_cpu 1]
      [mkOutput (Sample.on_cpu 2) true; mkOutput (Sample.on_cpu 3) false] in
  let w := Sample.registered "B" in
  let fn := mkFunction "p" [Sample.context_t; Sample.tensor_t]
                       [Sample.tensor_t; "i32"] in
  ∃ m es,
    serve Sample.env request w =
      Finished (mkWorld (function_cache_ w) m (trace w ++ es)) ∧
    ((∃ r, Done r ∈ es ∧ ok r = true) ↔ accepts Sample.env fn request).
Proof.
  intros request w fn.
  apply (success_iff_accepted Sample.env request w Sample.program_B fn).
  - apply registered_wf.
  - by vm_compute.
  - by vm_compute.
Defined.

(** X12.  When the response reports success, the function was called and
    every output was published, one [SetRemoteObject] per output, in
    request order, under the output's id with its device resolved, with
    the result of the same position; and the response came last. *)
Theorem success_publishes_every_output (env : Env)
    (request : RemoteExecuteInvocation) (w : World (AsyncValue env)) :
  cache_wf (function_cache_ w) →
  ∃ m es,
    serve env request w =
      Finished (mkWorld (function_cache_ w) m (trace w ++ es)) ∧
    ∀ r, Done r ∈ es → ok r = true →
      ∃ fn args ids,
        Forall2 (λ o id, resolve env (output_id o) = Some id)
                (outputs request) ids ∧
        publications es = zip ids (results_of env fn args) ∧
        length (publications es) = length (outputs request) ∧
        es = Executed fn args :: published_events env (publications es) ++
             [Done r].
Proof.
  intros Hwf. destruct (serve_outcome env request w Hwf) as (m & es & Hs & Hout).
  exists m, es. split; [done|]. intros r Hr Hok.
  destruct Hout; try apply Done_after_call in Hr;
    repeat (apply elem_of_cons in Hr as [Hr|Hr]; [try done; injection Hr as ->|]);
    try (by apply elem_of_nil in Hr); try done.
  exists fn, args, (resolved_prefix env (outputs request)).
  cbn [publications].
  rewrite publications_app, publications_published. cbn [publications].
  rewrite app_nil_r. subst pubs.
  split; [by apply resolved_prefix_Forall2|]. split; [done|]. split; [|done].
  rewrite length_zip_with, results_of_length. lia.
Qed.

Lemma success_publishes_every_output_witness :
  let request :=
    mkRemoteExecuteInvocation "p" "p" [Sample.on_cpu 1]
      [mkOutput (Sample.on_cpu 2) true; mkOutput (Sample.on_cpu 3) false] in
  let w := Sample.registered "B" in
  ∃ m es,
    serve Sample.env request w =
      Finished (mkWorld (function_cache_ w) m (trace w ++ es)) ∧
    ∀ r, Done r ∈ es → ok r = true →
      ∃ fn args ids,
        Forall2 (λ o id, resolve Sample.env (output_id o) = Some id)
                (outputs request) ids ∧
        publications es = zip ids (results_of Sample.env fn args) ∧
        length (publications es) = length (outputs request) ∧
        es = Executed fn args ::
             published_events Sample.env (publications es) ++ [Done r].
Proof.
  intros request w.
  apply (success_publishes_every_output Sample.env request w).
  apply registered_wf.
Defined.

(** X13.  The function is called at most once for a request, and never
    with a wrong number of arguments: the arguments of the call are as
    many as the function declares, the first of them the dispatcher's
    context when the function's first declared argument is the context
    type. *)
Theorem called_with_declared_arity (env : Env)
    (request : RemoteExecuteInvocation) (w : World (AsyncValue env)) :
  cache_wf (function_cache_ w) →
  ∃ m es,
    serve env request w =
      Finished (mkWorld (function_cache_ w) m (trace w ++ es)) ∧
    count_executed es ≤ 1 ∧
    ∀ fn args, Executed fn args ∈ es →
      length args = length (argument_types fn) ∧
      (takes_context fn = true → args !! 0 = Some (Some (dist_ctx_ env))).
Proof.
  intros Hwf. destruct (serve_outcome env request w Hwf) as (m & es & Hs & Hout).
  exists m, es. split; [done|]. split.
  - destruct Hout; cbn;
      rewrite ?count_executed_app, ?count_executed_published; cbn; lia.
  - intros fn' args' Hin.
    destruct Hout;
      try apply Executed_after_call in Hin as [[-> ->]|Hin];
      repeat (apply elem_of_cons in Hin as [Hin|Hin]; [done|]);
      try (by apply elem_of_nil in Hin);
      match goal with
      | H : resolve_inputs _ _ _ _ = inr _ |- _ =>
          apply resolve_inputs_inr_inv in H as [_ ->]
      end;
      (split;
       [rewrite length_app, length_map, context_arguments_length; lia
       |intros Hctx; unfold context_arguments; by rewrite Hctx]).
Qed.

Lemma called_with_declared_arity_witness :
  let request :=
    mkRemoteExecuteInvocation "p" "p" [Sample.on_cpu 1]
      [mkOutput (Sample.on_cpu 2) true; mkOutput (Sample.on_cpu 3) false] in
  let w := Sample.registered "B" in
  ∃ m es,
    serve Sample.env request w =
      Finished (mkWorld (function_cache_ w) m (trace w ++ es)) ∧
    count_executed es ≤ 1 ∧
    ∀ fn args, Executed fn args ∈ es →
      length args = length (argument_types fn) ∧
      (takes_context fn = true →
       args !! 0 = Some (Some (dist_ctx_ Sample.env))).
Proof.
  intros request w.
  apply (called_with_declared_arity Sample.env request w).
  apply registered_wf.
Defined.

(** X14.  Metadata is only ever serialized from results declared as
    tensors: whatever a response carries, success or failure, is the
    metadata of the first so many outputs that asked for it, and each of
    those is declared of the tensor type. *)
Theorem only_tensor_results_serialized (env : Env)
    (request : RemoteExecuteInvocation) (w : World (AsyncValue env)) :
  cache_wf (function_cache_ w) →
  ∃ m es,
    serve env request w =
      Finished (mkWorld (function_cache_ w) m (trace w ++ es)) ∧
    ∀ r, Done r ∈ es →
      metadata r = [] ∨
      ∃ fn args n,
        Executed fn args ∈ es ∧
        metadata r = requested_metadata env (take n (outputs request))
                                        (results_of env fn args) ∧
        ∀ j o t, j < n → outputs request !! j = Some o →
                 need_metadata o = true → result_types fn !! j = Some t →
                 t = "!t.tensor".
Proof.
  intros Hwf. destruct (serve_outcome env request w Hwf) as (m & es & Hs & Hout).
  exists m, es. split; [done|]. intros r Hr.
  destruct Hout; try apply Done_after_call in Hr;
    repeat (apply elem_of_cons in Hr as [Hr|Hr]; [try done; injection Hr as ->|]);
    try (by apply elem_of_nil in Hr); try by left.
  - right. exists fn, args, n. split; [apply elem_of_cons; by left|].
    split; [done|]. eauto.
  - right. exists fn, args, (length (outputs request)).
    split; [apply elem_of_cons; by left|].
    split; [by rewrite firstn_all|]. eauto.
Qed.

Lemma only_tensor_results_serialized_witness :
  let request :=
    mkRemoteExecuteInvocation "p" "p" [Sample.on_cpu 1]
      [mkOutput (Sample.on_cpu 2) true; mkOutput (Sample.on_cpu 3) true] in
  let w := Sample.registered "B" in
  ∃ m es,
    serve Sample.env request w =
      Finished (mkWorld (function_cache_ w) m (trace w ++ es)) ∧
    ∀ r, Done r ∈ es →
      metadata r = [] ∨
      ∃ fn args n,
        Executed fn args ∈ es ∧
        metadata r = requested_metadata Sample.env (take n (outputs request))
                                        (results_of Sample.env fn args) ∧
        ∀ j o t, j < n → outputs request !! j = Some o →
                 need_metadata o = true → result_types fn !! j = Some t →
                 t = "!t.tensor".
Proof.
  intros request w.
  apply (only_tensor_results_serialized Sample.env request w).
  apply registered_wf.
Defined.

(** X15.  When the counts fit and an input's device does not resolve, the
    request fails at the first such input: the diagnostic names its
    device, the failure response follows, and nothing was called or
    published, whatever the inputs and outputs after it. *)
Theorem first_unresolvable_input_reported (env : Env)
    (request : RemoteExecuteInvocation) (w : World (AsyncValue env))
    (fns : list Function) (fn : Function)
    (pre post : list WireObjectId) (id : WireObjectId) :
  cache_wf (function_cache_ w) →
  cached_program (function_cache_ w) (program_name request) = Some fns →
  GetFunction fns (program_name request) = Some fn →
  length (result_types fn) = length (outputs request) →
  length (argument_types fn) =
    (if takes_context fn then 1 else 0) + length (inputs request) →
  inputs request = pre ++ id :: post →
  Forall (λ id, is_Some (GetDeviceRef env (device id))) pre →
  GetDeviceRef env (device id) = None →
  serve env request w =
    Finished (emit [Log (CantFindDevice (device id));
                    Done (mkResult false [])] w).
Proof.
  intros Hwf Hfns Hfn Hres Hargs Hinputs Hpre Hid.
  pose proof (resolve_inputs_first_failure env pre post id (remote_objects w)
                (context_arguments env fn) Hpre Hid) as Hfail.
  rewrite <- Hinputs in Hfail.
  destruct (serve_outcome env request w Hwf) as (m & es & Hs & Hout).
  rewrite Hs. destruct Hout; simplify_eq; try lia; try congruence.
  match goal with
  | H : resolve_inputs _ _ _ _ = inl _ |- _ =>
      rewrite Hfail in H; injection H as <-
  end.
  done.
Qed.

Lemma first_unresolvable_input_reported_witness :
  let request :=
    mkRemoteExecuteInvocation "p" "p" [Sample.on_cpu 1; Sample.on_gpu 2] [] in
  let w :=
    HandleRemoteRegister Sample2.env (mkRemoteRegisterInvocation "p" "D")
                         Sample.world0 in
  serve Sample2.env request w =
    Finished (emit [Log (CantFindDevice "gpu:9");
                    Done (mkResult false [])] w).
Proof.
  intros request w.
  apply (first_unresolvable_input_reported Sample2.env request w
           Sample2.program_D
           (mkFunction "p" [Sample.tensor_t; Sample.tensor_t] [])
           [Sample.on_cpu 1] [] (Sample.on_gpu 2)).
  - apply (HandleRemoteRegister_wf Sample2.env). apply cache_wf_empty.
  - by vm_compute.
  - by vm_compute.
  - reflexivity.
  - reflexivity.
  - reflexivity.
  - repeat constructor. by eexists; vm_compute.
  - by vm_compute.
Defined.

(** X16.  Register, then execute: once a registration has installed a
    program, a request for it that the program's function accepts is
    served to the end: the function is called on the context and the
    stored inputs, every output is published, and the response reports
    success with the metadata asked for. *)
Theorem register_then_execute (env : Env)
    (registration : RemoteRegisterInvocation)
    (request : RemoteExecuteInvocation) (w : World (AsyncValue env))
    (fns : list Function) (fn : Function) :
  cache_wf (function_cache_ w) →
  ConvertMLIRSrcToBEF env (program registration) ≠ [] →
  BEFFile_Open env (ConvertMLIRSrcToBEF env (program registration))
    = Some fns →
  program_name request = register_program_name registration →
  GetFunction fns (program_name request) = Some fn →
  accepts env fn request →
  let w1 := HandleRemoteRegister env registration w in
  let args := call_arguments env fn request (remote_objects w) in
  let pubs := zip (resolved_prefix env (outputs request))
                  (results_of env fn args) in
  ∃ w2,
    serve env request w1 = Finished w2 ∧
    function_cache_ w2 = function_cache_ w1 ∧
    remote_objects w2 = publish_all env pubs (remote_objects w) ∧
    trace w2 =
      trace w ++
      Executed fn args :: published_events env pubs ++
      [Done (mkResult true
               (requested_metadata env (outputs request)
                                   (results_of env fn args)))].
Proof.
  intros Hwf Hconv Hopen Hname Hfn Hacc w1 args pubs.
  assert (cache_wf (function_cache_ w1)) as Hwf1
    by by apply HandleRemoteRegister_wf.
  assert (cached_program (function_cache_ w1) (program_name request)
          = Some fns ∧
          remote_objects w1 = remote_objects w ∧ trace w1 = trace w)
    as (Hfns & Hstore & Htrace).
  { subst w1. unfold HandleRemoteRegister. rewrite Hname.
    destruct (ConvertMLIRSrcToBEF env (program registration))
      as [|b bytes]; [done|].
    pose proof (Register_cached_program env (function_cache_ w)
                  (register_program_name registration) (b :: bytes) fns
                  Hwf Hopen) as Hprog.
    destruct (Register_success (BEFFile_Open env)
                (register_program_name registration) (b :: bytes) fns _
                Hwf Hopen) as (Hlog & _).
    destruct (Register (BEFFile_Open env)
                (register_program_name registration) (b :: bytes)
                (function_cache_ w)) as [c diags].
    cbn in *. subst diags. cbn. by rewrite app_nil_r. }
  pose proof (serve_accepted env request w1 fns fn Hwf1 Hfns Hfn Hacc) as Hs.
  cbv zeta in Hs. rewrite Hstore, Htrace in Hs.
  eexists. split; [exact Hs|]. done.
Qed.

Lemma register_then_execute_witness :
  let registration := mkRemoteRegisterInvocation "p" "B" in
  let request :=
    mkRemoteExecuteInvocation "p" "p" [Sample.on_cpu 1]
      [mkOutput (Sample.on_cpu 2) true; mkOutput (Sample.on_cpu 3) false] in
  let w := Sample.world0 in
  let fn := mkFunction "p" [Sample.context_t; Sample.tensor_t]
                       [Sample.tensor_t; "i32"] in
  let w1 := HandleRemoteRegister Sample.env registration w in
  let args := call_arguments Sample.env fn request (remote_objects w) in
  let pubs := zip (resolved_prefix Sample.env (outputs request))
                  (results_of Sample.env fn args) in
  ∃ w2,
    serve Sample.env request w1 = Finished w2 ∧
    function_cache_ w2 = function_cache_ w1 ∧
    remote_objects w2 = publish_all Sample.env pubs (remote_objects w) ∧
    trace w2 =
      trace w ++
      Executed fn args :: published_events Sample.env pubs ++
      [Done (mkResult true
               (requested_metadata Sample.env (outputs request)
                                   (results_of Sample.env fn args)))].
Proof.
  intros registration request w fn.
  apply (register_then_execute Sample.env registration request w
           Sample.program_B fn).
  - apply cache_wf_empty.
  - by vm_compute.
  - reflexivity.
  - reflexivity.
  - by vm_compute.
  - repeat split.
    + repeat constructor. by eexists; vm_compute.
    + repeat constructor; by eexists; vm_compute.
    + intros [|[|j]] o t Ho Hneed Ht; cbn in *; simplify_eq; done.
Defined.

(** ** Registrations over time *)

Section LastWrite.

Variable env : Env.

Lemma Register_keeps_cached_program (c : FunctionCache) (name name' : string)
    (bytes : BEFBuffer) :
  cache_wf c → name ≠ name' →
  cached_program (Register (BEFFile_Open env) name bytes c).1 name' =
  cached_program c name'.
Proof.
  intros Hwf Hne. destruct (BEFFile_Open env bytes) as [fns|] eqn:Hopen.
  2:{ by rewrite Register_parse_failure. }
  destruct (Register_success (BEFFile_Open env) name bytes fns c Hwf Hopen)
    as (_ & Hc & _ & _ & Hfiles & _).
  pose proof (fresh_file_free c) as Hfa.
  destruct Hwf as [Hlive Hinj].
  unfold cached_program. rewrite Hc, lookup_insert_ne by done.
  destruct (cached_bef_ c !! name') as [e|] eqn:He; [|done].
  destruct (Hlive _ _ He) as (f & Hf & _).
  rewrite Hfiles; [done|congruence|].
  intros old Hold Heq. apply Hne.
  eapply Hinj; [exact Hold|exact He|left; congruence].
Qed.

Lemma handle_keeps_cached_program (w : World (AsyncValue env))
    (inv : Invocation) (name : string) :
  cache_wf (function_cache_ w) → cache_tight (function_cache_ w) →
  ¬ installs env name inv →
  ∃ w', handle env w inv = Finished w' ∧
        cache_wf (function_cache_ w') ∧ cache_tight (function_cache_ w') ∧
        cached_program (function_cache_ w') name =
        cached_program (function_cache_ w) name.
Proof.
  intros Hwf Htight Hnot.
  destruct (handle_invariant env w inv Hwf Htight)
    as (w' & Hrun & Hwf' & Htight' & _).
  exists w'. split; [done|]. split; [done|]. split; [done|].
  destruct inv as [request|request]; cbn [handle] in Hrun.
  - injection Hrun as <-. unfold HandleRemoteRegister. cbn in Hnot.
    destruct (ConvertMLIRSrcToBEF env (program request)) as [|b bytes]; [done|].
    destruct (decide (register_program_name request = name)) as [Heq|Hne].
    + destruct (BEFFile_Open env (b :: bytes)) as [fns|] eqn:Hopen.
      * exfalso. apply Hnot. split; [done|]. split; [done|]. by eexists.
      * by rewrite (Register_parse_failure _ _ _ _ Hopen).
    + pose proof (Register_keeps_cached_program (function_cache_ w)
                    (register_program_name request) name (b :: bytes)
                    Hwf Hne) as Hkeep.
      by destruct (Register (BEFFile_Open env) (register_program_name request)
                     (b :: bytes) (function_cache_ w)).
  - destruct (serve_keeps_cache env request w Hwf) as (w1 & Hs & Hc & _).
    rewrite Hs in Hrun. injection Hrun as <-. by rewrite Hc.
Qed.

Lemma handle_all_keeps_cached_program (invs : list Invocation)
    (w : World (AsyncValue env)) (name : string) :
  cache_wf (function_cache_ w) → cache_tight (function_cache_ w) →
  Forall (λ inv, ¬ installs env name inv) invs →
  ∃ w', handle_all env invs w = Finished w' ∧
        cache_wf (function_cache_ w') ∧
        cached_program (function_cache_ w') name =
        cached_program (function_cache_ w) name.
Proof.
  revert w. induction invs as [|inv invs IH]; intros w Hwf Htight Hall; cbn.
  - by exists w.
  - apply Forall_cons in Hall as [Hinv Hall].
    destruct (handle_keeps_cached_program w inv name Hwf Htight Hinv)
      as (w1 & -> & Hwf1 & Htight1 & Hkeep1).
    destruct (IH w1 Hwf1 Htight1 Hall) as (w' & Hrun & Hwf' & Hkeep).
    exists w'. split; [done|]. split; [done|]. congruence.
Qed.

Lemma handle_all_app (invs1 invs2 : list Invocation)
    (w : World (AsyncValue env)) :
  handle_all env (invs1 ++ invs2) w =
    match handle_all env invs1 w with
    | Undefined => Undefined
    | Finished w' => handle_all env invs2 w'
    end.
Proof.
  revert w. induction invs1 as [|inv invs1 IH]; intros w; cbn; [done|].
  destruct (handle env w inv) as [w'|]; [apply IH|done].
Qed.

End LastWrite.

(** X17.  A registration either succeeds in silence or logs exactly one
    diagnostic and leaves the cache as it was; it never touches the object
    store and never logs while changing the cache. *)
Theorem registration_silent_or_unchanged (env : Env)
    (request : RemoteRegisterInvocation) (w : World (AsyncValue env)) :
  let w' := HandleRemoteRegister env request w in
  remote_objects w' = remote_objects w ∧
  (trace w' = trace w ∨
   ∃ d, trace w' = trace w ++ [Log d] ∧ function_cache_ w' = function_cache_ w).
Proof.
  unfold HandleRemoteRegister.
  destruct (ConvertMLIRSrcToBEF env (program request)) as [|b bytes].
  - cbn. split; [done|]. right. eauto.
  - destruct (BEFFile_Open env (b :: bytes)) as [fns|] eqn:Hopen.
    + unfold Register. rewrite Hopen. cbn. split; [done|]. left.
      by rewrite app_nil_r.
    + rewrite (Register_parse_failure _ _ _ _ Hopen). cbn. split; [done|].
      right. eauto.
Qed.

(** X18.  Last write wins over any history: after a registration has
    installed a program under a name, and whatever requests follow that
    install nothing under that name (executions, registrations of other
    names, registrations of the same name that fail to compile or parse),
    [Prepare] of the name returns that program. *)
Theorem last_installed_program_prepared (env : Env)
    (before after : list Invocation) (registration : RemoteRegisterInvocation)
    (fns : list Function) (m0 : gmap RemoteObjectId (AsyncValue env)) :
  ConvertMLIRSrcToBEF env (program registration) ≠ [] →
  BEFFile_Open env (ConvertMLIRSrcToBEF env (program registration))
    = Some fns →
  Forall (λ inv, ¬ installs env (register_program_name registration) inv)
         after →
  ∃ w r c',
    handle_all env (before ++ RegisterInvocation registration :: after)
               (RequestHandler_new m0) = Finished w ∧
    Prepare (register_program_name registration) (function_cache_ w)
      = (Some r, c') ∧
    RC.get c' r = Some fns.
Proof.
  intros Hconv Hopen Hafter.
  destruct (handle_all_invariant env before (RequestHandler_new m0))
    as (w0 & Hrun0 & Hwf0 & Htight0 & _);
    [apply cache_wf_empty|apply cache_tight_empty|].
  set (w1 := HandleRemoteRegister env registration w0).
  assert (cache_wf (function_cache_ w1)) as Hwf1
    by by apply HandleRemoteRegister_wf.
  assert (cache_tight (function_cache_ w1)) as Htight1
    by by apply HandleRemoteRegister_tight.
  assert (cached_program (function_cache_ w1)
            (register_program_name registration) = Some fns) as Hprog1.
  { subst w1. unfold HandleRemoteRegister.
    destruct (ConvertMLIRSrcToBEF env (program registration))
      as [|b bytes]; [done|].
    pose proof (Register_cached_program env (function_cache_ w0)
                  (register_program_name registration) (b :: bytes) fns
                  Hwf0 Hopen) as Hprog.
    by destruct (Register (BEFFile_Open env)
                   (register_program_name registration) (b :: bytes)
                   (function_cache_ w0)). }
  destruct (handle_all_keeps_cached_program env after w1
              (register_program_name registration) Hwf1 Htight1 Hafter)
    as (w & Hrun & Hwf & Hkeep).
  pose proof (Prepare_cached_program (function_cache_ w)
                (register_program_name registration) Hwf) as Hprep.
  destruct (Prepare (register_program_name registration) (function_cache_ w))
    as [[r|] c'] eqn:HP.
  - destruct Hprep as (Hget & _ & _).
    exists w, r, c'. split; [|split; [done|congruence]].
    rewrite handle_all_app, Hrun0. cbn. done.
  - destruct Hprep as [Hnone _]. congruence.
Qed.

Lemma last_installed_program_prepared_witness :
  let before := [RegisterInvocation (mkRemoteRegisterInvocation "p" "A")] in
  let after :=
    [RegisterInvocation (mkRemoteRegisterInvocation "p" "Z");
     ExecuteInvocation (mkRemoteExecuteInvocation "p" "p" [] []);
     RegisterInvocation (mkRemoteRegisterInvocation "q" "A")] in
  let registration := mkRemoteRegisterInvocation "p" "B" in
  ∃ w r c',
    handle_all Sample.env (before ++ RegisterInvocation registration :: after)
               (RequestHandler_new ∅) = Finished w ∧
    Prepare "p" (function_cache_ w) = (Some r, c') ∧
    RC.get c' r = Some Sample.program_B.
Proof.
  intros before after registration.
  apply (last_installed_program_prepared Sample.env before after registration
           Sample.program_B ∅).
  - by vm_compute.
  - reflexivity.
  - repeat constructor.
    + intros (_ & _ & [fns Hfns]). vm_compute in Hfns. discriminate.
    + intros [].
    + intros (Hname & _). vm_compute in Hname. discriminate.
Defined.

(** * The metadata of a response *)

Section Metadata.

Variable env : Env.

(** The loop stops at one output only. *)
Lemma stops_at_unique (fn : Function) (request : RemoteExecuteInvocation)
    (n n' : nat) (o o' : Output) (t t' : string) :
  stops_at fn request n o t → stops_at fn request n' o' t' →
  n = n' ∧ o = o' ∧ t = t'.
Proof.
  intros (Ho & Hneed & Ht & Hbad & Hfirst) (Ho' & Hneed' & Ht' & Hbad' & Hfirst').
  assert (n = n') as <-.
  { destruct (Nat.lt_trichotomy n n') as [Hlt|[Heq|Hgt]]; [|done|].
    - exfalso. apply Hbad. by eapply (Hfirst' n).
    - exfalso. apply Hbad'. by eapply (Hfirst n'). }
  split; [done|]. split; congruence.
Qed.

(** A request that passes every check before the continuation and whose
    loop stops at output [n] is answered with the failure response that
    carries what the loop serialized in front of [n]. *)
Lemma serve_type_mismatch (request : RemoteExecuteInvocation)
    (w : World (AsyncValue env)) (fns : list Function) (fn : Function)
    (n : nat) (o : Output) (t : string) :
  cache_wf (function_cache_ w) →
  cached_program (function_cache_ w) (program_name request) = Some fns →
  GetFunction fns (program_name request) = Some fn →
  length (result_types fn) = length (outputs request) →
  length (argument_types fn) =
    (if takes_context fn then 1 else 0) + length (inputs request) →
  Forall (λ id, is_Some (GetDeviceRef env (device id))) (inputs request) →
  Forall (λ o, is_Some (GetDeviceRef env (device (output_id o))))
         (outputs request) →
  stops_at fn request n o t →
  let args := call_arguments env fn request (remote_objects w) in
  let pubs := zip (resolved_prefix env (outputs request))
                  (results_of env fn args) in
  serve env request w =
    Finished
      (mkWorld (function_cache_ w) (publish_all env pubs (remote_objects w))
         (trace w ++
          Executed fn args :: published_events env pubs ++
          [Log (InvalidType t);
           Done (mkResult false
                   (requested_metadata env (take n (outputs request))
                                       (results_of env fn args)))])).
Proof.
  intros Hwf Hfns Hfn Hres Hargs Hins Houts Hstop args pubs.
  subst args pubs. unfold call_arguments.
  pose proof (resolve_inputs_inr env (inputs request) (remote_objects w)
                (context_arguments env fn) Hins) as Hin.
  apply resolved_prefix_all in Houts.
  destruct (serve_outcome env request w Hwf) as (m & es & Hs & Hout).
  rewrite Hs.
  destruct Hout; simplify_eq; try lia; try congruence.
  - match goal with
    | H : outputs request !! _ = Some _ |- _ => apply lookup_lt_Some in H
    end.
    lia.
  - match goal with
    | H : resolve_inputs _ _ _ _ = inr _ |- _ =>
        rewrite Hin in H; injection H as <-
    end.
    assert (stops_at fn request n0 o0 t0) as Hstop0 by done.
    destruct (stops_at_unique _ _ _ _ _ _ _ _ Hstop Hstop0) as (<- & <- & <-).
    done.
  - exfalso. destruct Hstop as (Ho & Hneed & Ht & Hbad & _).
    apply Hbad. eauto.
Qed.

End Metadata.

(** C2, amended.  A response with [ok = false] has an empty metadata list,
    except when the failure is an output that asks for metadata and whose
    declared type is not the tensor type: the response then carries, and
    does carry, the serialized metadata of the outputs in front of the
    first such output that asked for it. *)
Theorem failure_metadata (env : Env) (request : RemoteExecuteInvocation)
    (w : World (AsyncValue env)) :
  cache_wf (function_cache_ w) →
  ∃ m es,
    serve env request w =
      Finished (mkWorld (function_cache_ w) m (trace w ++ es)) ∧
    (∀ r, Done r ∈ es → ok r = false →
       ((∀ t, Log (InvalidType t) ∉ es) ∧ metadata r = []) ∨
       ∃ fns fn n o t,
         cached_program (function_cache_ w) (program_name request)
           = Some fns ∧
         GetFunction fns (program_name request) = Some fn ∧
         stops_at fn request n o t ∧
         Log (InvalidType t) ∈ es ∧
         Executed fn (call_arguments env fn request (remote_objects w)) ∈ es ∧
         metadata r =
           requested_metadata env (take n (outputs request))
             (results_of env fn
                (call_arguments env fn request (remote_objects w)))) ∧
    (∀ fns fn n o t,
       cached_program (function_cache_ w) (program_name request) = Some fns →
       GetFunction fns (program_name request) = Some fn →
       length (result_types fn) = length (outputs request) →
       length (argument_types fn) =
         (if takes_context fn then 1 else 0) + length (inputs request) →
       Forall (λ id, is_Some (GetDeviceRef env (device id)))
              (inputs request) →
       Forall (λ o, is_Some (GetDeviceRef env (device (output_id o))))
              (outputs request) →
       stops_at fn request n o t →
       last es =
         Some (Done (mkResult false
                 (requested_metadata env (take n (outputs request))
                    (results_of env fn
                       (call_arguments env fn request
                                       (remote_objects w))))))).
Proof.
  intros Hwf. destruct (serve_outcome env request w Hwf) as (m & es & Hs & Hout).
  exists m, es. split; [done|]. split.
  - intros r Hr Hok.
    destruct Hout; try apply Done_after_call in Hr;
      repeat (apply elem_of_cons in Hr as [Hr|Hr];
              [try done; injection Hr as ->|]);
      try (by apply elem_of_nil in Hr); try done.
    + left. split; [|done]. intros t Hin.
      repeat (apply elem_of_cons in Hin as [Hin|Hin]; [done|]).
      by apply elem_of_nil in Hin.
    + left. split; [|done]. intros t Hin.
      repeat (apply elem_of_cons in Hin as [Hin|Hin]; [done|]).
      by apply elem_of_nil in Hin.
    + left. split; [|done]. intros t Hin.
      repeat (apply elem_of_cons in Hin as [Hin|Hin]; [done|]).
      by apply elem_of_nil in Hin.
    + left. split; [|done]. intros t Hin.
      repeat (apply elem_of_cons in Hin as [Hin|Hin]; [done|]).
      by apply elem_of_nil in Hin.
    + left. split; [|done]. intros t Hin.
      apply elem_of_cons in Hin as [Hin|Hin]; [done|].
      apply elem_of_app in Hin as [Hin|Hin].
      * unfold published_events in Hin.
        apply list_elem_of_fmap in Hin as (p & Hp & _). done.
      * repeat (apply elem_of_cons in Hin as [Hin|Hin]; [done|]).
        by apply elem_of_nil in Hin.
    + right.
      match goal with
      | H : resolve_inputs _ _ _ _ = inr _ |- _ =>
          apply resolve_inputs_inr_inv in H as [_ ->]
      end.
      exists fns, fn, n, o, t. split; [done|]. split; [done|].
      split; [done|]. split.
      { apply elem_of_cons. right. apply elem_of_app. right.
        apply elem_of_cons. by left. }
      split; [apply elem_of_cons; by left|done].
  - intros fns fn n o t Hfns Hfn Hres Hargs Hins Houts Hstop.
    pose proof (serve_type_mismatch env request w fns fn n o t Hwf Hfns Hfn
                  Hres Hargs Hins Houts Hstop) as Hs'.
    cbv zeta in Hs'. rewrite Hs in Hs'. injection Hs' as _ Hes.
    apply app_inv_head in Hes. subst es.
    rewrite app_comm_cons, last_app. done.
Qed.

Lemma failure_metadata_witness :
  let request :=
    mkRemoteExecuteInvocation "p" "p" [Sample.on_cpu 1]
      [mkOutput (Sample.on_cpu 2) true; mkOutput (Sample.on_cpu 3) true] in
  let w := Sample.registered "B" in
  let fn := mkFunction "p" [Sample.context_t; Sample.tensor_t]
                       [Sample.tensor_t; "i32"] in
  ∃ m es,
    serve Sample.env request w =
      Finished (mkWorld (function_cache_ w) m (trace w ++ es)) ∧
    last es = Some (Done (mkResult false ["meta:p#0"])).
Proof.
  intros request w fn.
  destruct (failure_metadata Sample.env request w (registered_wf "B"))
    as (m & es & Hs & _ & Hstops).
  exists m, es. split; [exact Hs|].
  apply (Hstops Sample.program_B fn 1 (mkOutput (Sample.on_cpu 3) true) "i32").
  - by vm_compute.
  - by vm_compute.
  - reflexivity.
  - reflexivity.
  - repeat constructor. by eexists; vm_compute.
  - repeat constructor; by eexists; vm_compute.
  - repeat split; try done.
    intros j o' t' Hj Ho' Hneed Ht'. assert (j = 0) as -> by lia.
    cbn in Ht'. by injection Ht' as <-.
Defined.

(** C9.  A request that passes every check is answered with [ok = true],
    and a response with [ok = true] only comes from such a request; its
    metadata list is the serialized metadata of the results whose output
    asks for it, one entry each, in request order, and nothing for the
    other outputs.  In particular, with two results [A, B] and metadata
    asked for the first output only, the list has exactly one entry, the
    serialized metadata of [A]. *)
Theorem success_metadata (env : Env) (request : RemoteExecuteInvocation)
    (w : World (AsyncValue env)) :
  cache_wf (function_cache_ w) →
  ∃ m es,
    serve env request w =
      Finished (mkWorld (function_cache_ w) m (trace w ++ es)) ∧
    (∀ fns fn,
       cached_program (function_cache_ w) (program_name request) = Some fns →
       GetFunction fns (program_name request) = Some fn →
       accepts env fn request →
       last es =
         Some (Done (mkResult true
                 (requested_metadata env (outputs request)
                    (results_of env fn
                       (call_arguments env fn request
                                       (remote_objects w))))))) ∧
    (∀ r, Done r ∈ es → ok r = true →
       ∃ fns fn,
         cached_program (function_cache_ w) (program_name request)
           = Some fns ∧
         GetFunction fns (program_name request) = Some fn ∧
         accepts env fn request ∧
         let args := call_arguments env fn request (remote_objects w) in
         Executed fn args ∈ es ∧
         length (results_of env fn args) = length (outputs request) ∧
         metadata r = requested_metadata env (outputs request)
                                         (results_of env fn args) ∧
         length (metadata r) =
           length (filter (λ o, need_metadata o = true) (outputs request)) ∧
         (∀ o1 o2, outputs request = [o1; o2] →
                   need_metadata o1 = true → need_metadata o2 = false →
                   metadata r =
                     [SerializeTensorMetadata env (Execute env fn args 0)])).
Proof.
  intros Hwf. destruct (serve_outcome env request w Hwf) as (m & es & Hs & Hout).
  exists m, es. split; [done|]. split.
  - intros fns fn Hfns Hfn Hacc.
    pose proof (serve_accepted env request w fns fn Hwf Hfns Hfn Hacc) as Hs'.
    cbv zeta in Hs'. rewrite Hs in Hs'. injection Hs' as _ Hes.
    apply app_inv_head in Hes. subst es.
    rewrite app_comm_cons, last_app. done.
  - intros r Hr Hok.
    destruct (success_accepted env request _ _ _ _ r Hout Hr Hok)
      as (fns' & fn' & Hfns' & Hfn' & Hacc).
    exists fns', fn'. split; [done|]. split; [done|]. split; [done|].
    pose proof (serve_accepted env request w fns' fn' Hwf Hfns' Hfn' Hacc)
      as Hs'.
    cbv zeta in Hs'. rewrite Hs in Hs'. injection Hs' as _ Hes.
    apply app_inv_head in Hes. subst es. cbv zeta.
    set (args := call_arguments env fn' request (remote_objects w)) in *.
    apply Done_after_call in Hr.
    apply list_elem_of_singleton in Hr. injection Hr as ->.
    assert (length (results_of env fn' args) = length (outputs request))
      as Hlen by (rewrite results_of_length; apply Hacc).
    split; [apply elem_of_cons; by left|]. split; [done|]. split; [done|].
    split; [cbn; by apply requested_metadata_length|].
    intros o1 o2 Houts Hneed1 Hneed2. cbn [metadata].
    destruct Hacc as (Hres & _). rewrite Houts in Hres. cbn in Hres.
    unfold results_of. rewrite Hres, Houts. cbn.
    unfold requested_metadata. cbn. by rewrite Hneed1, Hneed2.
Qed.

Lemma success_metadata_witness :
  let request :=
    mkRemoteExecuteInvocation "p" "p" [Sample.on_cpu 1]
      [mkOutput (Sample.on_cpu 2) true; mkOutput (Sample.on_cpu 3) false] in
  let w := Sample.registered "B" in
  ∃ m es,
    serve Sample.env request w =
      Finished (mkWorld (function_cache_ w) m (trace w ++ es)) ∧
    last es = Some (Done (mkResult true ["meta:p#0"])) ∧
    ∀ r, Done r ∈ es → ok r = true → metadata r = ["meta:p#0"].
Proof.
  intros request w.
  destruct (success_metadata Sample.env request w (registered_wf "B"))
    as (m & es & Hs & Hyes & Honly).
  exists m, es. split; [exact Hs|]. split.
  - apply (Hyes Sample.program_B
             (mkFunction "p" [Sample.context_t; Sample.tensor_t]
                         [Sample.tensor_t; "i32"])).
    + by vm_compute.
    + by vm_compute.
    + repeat split.
      * repeat constructor. by eexists; vm_compute.
      * repeat constructor; by eexists; vm_compute.
      * intros [|[|j]] o t Ho Hneed Ht; cbn in *; simplify_eq; done.
  - intros r Hr Hok.
    destruct (Honly r Hr Hok)
      as (fns & fn & Hfns & Hfn & _ & _ & _ & _ & _ & Hone).
    assert (fns = Sample.program_B) as ->
      by (vm_compute in Hfns; by injection Hfns as <-).
    vm_compute in Hfn. injection Hfn as <-.
    by rewrite (Hone _ _ eq_refl eq_refl eq_refl).
Defined.
